(** * A binary indexed (Fenwick) tree over 32-bit integers

    Shallow embedding of [src/fenwick_tree.cc]: the class [FenwickTree]
    with its constructor and its two member functions [update] and
    [query], followed by the properties of the structure.

    - C++ [int] is a 32-bit two's complement integer, modelled as a [Z]
      with the wrap-around written out ([Int32.wrap]).
    - [vector<int> tree_] is a [list Z]; [tree_[i]] outside the vector is
      undefined behaviour in C++ and is the outcome [Fault] here.
    - the member functions run in a small state-and-error monad over the
      object; the two [while] loops take a fuel argument that counts
      evaluations of the loop condition. *)

From stdpp Require Import base list.
From Stdlib Require Import ZArith Lia.

Local Open Scope Z_scope.

(** ** 32-bit signed integers *)

Module Int32.

Definition min_signed : Z := -2147483648.
Definition max_signed : Z := 2147483647.

(** Reduction of an integer to the representable range. *)
Definition wrap (z : Z) : Z := (z + 2147483648) mod 4294967296 - 2147483648.

Definition in_range (z : Z) : Prop := min_signed <= z <= max_signed.

Definition add (a b : Z) : Z := wrap (a + b).
Definition sub (a b : Z) : Z := wrap (a - b).
Definition neg (a : Z) : Z := wrap (- a).
Definition mul (a b : Z) : Z := wrap (a * b).
Definition and (a b : Z) : Z := Z.land a b.

End Int32.

(** [index & (-index)]: the lowest set bit of [index]. *)
Definition lowbit (index : Z) : Z := Int32.and index (Int32.neg index).

(** Slot [i] of the tree is responsible for the 1-based positions
    [i - lowbit i + 1 .. i]. *)
Definition covers (i p : Z) : Prop := i - lowbit i < p <= i.

Definition coversb (i p : Z) : bool := (i - lowbit i <? p) && (p <=? i).

(** ** The object and the monad of its member functions *)

(** [class FenwickTree]: the private members [size_] and [tree_]. *)
Record FenwickTree : Type := mkFenwickTree { size_ : Z; tree_ : list Z }.

(** What a call can do: return, run into undefined behaviour by indexing
    outside [tree_], throw from the [vector] constructor, or still be
    running when the fuel is used up. *)
Inductive outcome (A : Type) : Type :=
  | Ok (a : A)
  | Fault
  | LengthError
  | Timeout.

Arguments Ok {A} a.
Arguments Fault {A}.
Arguments LengthError {A}.
Arguments Timeout {A}.

Definition M (A : Type) : Type := FenwickTree -> outcome (A * FenwickTree).

Definition ret {A} (a : A) : M A := fun this => Ok (a, this).

Definition bind {A B} (m : M A) (k : A -> M B) : M B :=
  fun this =>
    match m this with
    | Ok (a, this') => k a this'
    | Fault => Fault
    | LengthError => LengthError
    | Timeout => Timeout
    end.

Definition timeout {A} : M A := fun _ => Timeout.

Declare Scope fenwick_scope.
Delimit Scope fenwick_scope with fenwick.
Notation "'let*' x ':=' m 'in' k" := (bind m (fun x => k))
  (at level 10, x name, m at level 100, k at level 200) : fenwick_scope.
Notation "m '>>' k" := (bind m (fun _ => k))
  (at level 61, left associativity) : fenwick_scope.
Local Open Scope fenwick_scope.

(** The value a call returns, without the object. *)
Definition value_of {A} (o : outcome (A * FenwickTree)) : outcome A :=
  match o with
  | Ok (a, _) => Ok a
  | Fault => Fault
  | LengthError => LengthError
  | Timeout => Timeout
  end.

(** How a call ends, without what it returns. *)
Definition shape {A} (o : outcome A) : outcome unit :=
  match o with
  | Ok _ => Ok tt
  | Fault => Fault
  | LengthError => LengthError
  | Timeout => Timeout
  end.

(** Reading [size_]. *)
Definition get_size : M Z := fun this => Ok (size_ this, this).

(** Reading [tree_[i]]: the [int] index is converted to [size_t], so a
    negative index is as far out of the vector as a too large one. *)
Definition tree_at (i : Z) : M Z :=
  fun this =>
    if 0 <=? i then
      match tree_ this !! Z.to_nat i with
      | Some v => Ok (v, this)
      | None => Fault
      end
    else Fault.

(** Writing [tree_[i]]. *)
Definition tree_set (i v : Z) : M unit :=
  fun this =>
    if (0 <=? i) && (i <? Z.of_nat (length (tree_ this))) then
      Ok (tt, mkFenwickTree (size_ this) (<[Z.to_nat i := v]> (tree_ this)))
    else Fault.

(** [tree_[i] += delta]. *)
Definition tree_add (i delta : Z) : M unit :=
  let* v := tree_at i in tree_set i (Int32.add v delta).

(** [FenwickTree(int size) : size_(size), tree_(size + 1, 0) {}].
    The count [size + 1] is converted to [size_t]; a negative count becomes
    a value above [max_size()] and the vector constructor throws. *)
Definition FenwickTree_new (size : Z) : outcome FenwickTree :=
  let n := Int32.add size 1 in
  if n <? 0 then LengthError
  else Ok (mkFenwickTree size (replicate (Z.to_nat n) 0)).

(** [while (index <= size_) { tree_[index] += delta; index += index & (-index); }] *)
Fixpoint update_loop (fuel : nat) (index delta : Z) : M unit :=
  match fuel with
  | O => timeout
  | S fuel' =>
      let* size := get_size in
      if index <=? size then
        tree_add index delta >>
        update_loop fuel' (Int32.add index (lowbit index)) delta
      else ret tt
  end.

(** [void update(int index, int delta)] *)
Definition update (fuel : nat) (index delta : Z) : M unit :=
  let index := Int32.add index 1 in
  update_loop fuel index delta.

(** [while (index > 0) { sum += tree_[index]; index -= index & (-index); }] *)
Fixpoint query_loop (fuel : nat) (index sum : Z) : M Z :=
  match fuel with
  | O => timeout
  | S fuel' =>
      if 0 <? index then
        let* v := tree_at index in
        query_loop fuel' (Int32.sub index (lowbit index)) (Int32.add sum v)
      else ret sum
  end.

(** [int query(int index)] *)
Definition query (fuel : nat) (index : Z) : M Z :=
  let index := Int32.add index 1 in
  let sum := 0 in
  query_loop fuel index sum.

(** A sequence of [update] calls, first call first. *)
Fixpoint run_updates (fuel : nat) (ups : list (Z * Z)) : M unit :=
  match ups with
  | [] => ret tt
  | (index, delta) :: rest => update fuel index delta >> run_updates fuel rest
  end.

(** ** The update history and what the slots hold *)

(** Sum of the deltas of the updates whose index satisfies [p]. *)
Fixpoint sum_where (p : Z -> bool) (ups : list (Z * Z)) : Z :=
  match ups with
  | [] => 0
  | (index, delta) :: rest =>
      if p index then delta + sum_where p rest else sum_where p rest
  end.

(** Sum of the deltas applied to the indices [0 .. k]. *)
Definition prefix_sum (ups : list (Z * Z)) (k : Z) : Z :=
  sum_where (fun j => j <=? k) ups.

(** Sum of the deltas applied to the indices [lo .. hi - 1]. *)
Definition sum_between (ups : list (Z * Z)) (lo hi : Z) : Z :=
  sum_where (fun j => (lo <=? j) && (j <? hi)) ups.

(** The logical element at a 0-based index: all the deltas added to it. *)
Definition element (ups : list (Z * Z)) (j : Z) : Z :=
  sum_where (fun j' => j' =? j) ups.

(** Every index of the history lies in [0, size). *)
Definition indices_in_range (size : Z) (ups : list (Z * Z)) : Prop :=
  Forall (fun u => 0 <= fst u < size) ups.

(** Representation: [tree_] has [size_ + 1] slots and [size_ + 1] is an [int]. *)
Definition wf (this : FenwickTree) : Prop :=
  0 <= size_ this < Int32.max_signed /\
  Z.of_nat (length (tree_ this)) = size_ this + 1.

(** The structural invariant after the updates [ups]: slot 0 is zero and slot
    [i] holds the sum over the 0-based indices [i - lowbit i .. i - 1], that
    is the 1-based positions [i - lowbit i + 1 .. i]. *)
Definition Inv (ups : list (Z * Z)) (this : FenwickTree) : Prop :=
  wf this /\
  tree_ this !! 0%nat = Some 0 /\
  forall i, 1 <= i <= size_ this ->
    tree_ this !! Z.to_nat i = Some (Int32.wrap (sum_between ups (i - lowbit i) i)).

(** The slots the update loop started at position [x] writes. *)
Definition touched (size x i : Z) : bool := coversb i x && (i <=? size).

(** ** The logical elements *)

(** Sum of the [n] logical elements at the 0-based indices [lo .. lo + n - 1]. *)
Fixpoint sum_elements (ups : list (Z * Z)) (lo : Z) (n : nat) : Z :=
  match n with
  | O => 0
  | S n' => element ups lo + sum_elements ups (lo + 1) n'
  end.

(** What slot [i] holds: the elements at the 0-based indices
    [i - lowbit i .. i - 1], which sit at the 1-based positions
    [i - lowbit i + 1 .. i]. *)
Definition slot_sum (ups : list (Z * Z)) (i : Z) : Z :=
  Int32.wrap (sum_elements ups (i - lowbit i) (Z.to_nat (lowbit i))).

(** The slot contents in the words of the specification: the elements
    whose 0-based indices lie in [(i - lowbit i, i]]. *)
Definition stated_slot_sum (ups : list (Z * Z)) (i : Z) : Z :=
  sum_elements ups (i - lowbit i + 1) (Z.to_nat (lowbit i)).

(** ** The checks of [testFenwickTree] *)

(** Test case 1 of the source, lines 65 to 84: the values of the queries
    in the order of the assertions. *)
Definition test_case_1 (fuel : nat) : M (list Z) :=
  update fuel 0 1 >>
  let* a0 := query fuel 0 in
  let* a1 := query fuel 1 in
  let* a2 := query fuel 2 in
  update fuel 1 2 >>
  let* b0 := query fuel 0 in
  let* b1 := query fuel 1 in
  let* b2 := query fuel 2 in
  update fuel 2 3 >>
  let* c0 := query fuel 0 in
  let* c1 := query fuel 1 in
  let* c2 := query fuel 2 in
  update fuel 3 4 >>
  update fuel 4 5 >>
  let* d0 := query fuel 0 in
  let* d1 := query fuel 1 in
  let* d2 := query fuel 2 in
  let* d3 := query fuel 3 in
  let* d4 := query fuel 4 in
  ret [a0; a1; a2; b0; b1; b2; c0; c1; c2; d0; d1; d2; d3; d4].

(** Test case 2 of the source, lines 87 to 99. *)
Definition test_case_2 (fuel : nat) : M (list Z) :=
  update fuel 0 10 >>
  let* a0 := query fuel 0 in
  let* a1 := query fuel 1 in
  let* a2 := query fuel 2 in
  update fuel 1 20 >>
  let* b0 := query fuel 0 in
  let* b1 := query fuel 1 in
  let* b2 := query fuel 2 in
  update fuel 0 5 >>
  let* c0 := query fuel 0 in
  let* c1 := query fuel 1 in
  let* c2 := query fuel 2 in
  ret [a0; a1; a2; b0; b1; b2; c0; c1; c2].

(** Test case 3 of the source, lines 102 to 106. *)
Definition test_case_3 (fuel : nat) : M (list Z) :=
  update fuel 2 7 >>
  let* a0 := query fuel 0 in
  let* a1 := query fuel 1 in
  let* a2 := query fuel 2 in
  ret [a0; a1; a2].

(** [runFenwickTreeSample], lines 111 to 122: the values it prints. *)
Definition runFenwickTreeSample (fuel : nat) : M (list Z) :=
  update fuel 0 10 >>
  update fuel 2 5 >>
  let* a0 := query fuel 0 in
  let* a1 := query fuel 1 in
  let* a2 := query fuel 2 in
  update fuel 5 7 >>
  update fuel 9 3 >>
  let* b4 := query fuel 4 in
  let* b5 := query fuel 5 in
  let* b9 := query fuel 9 in
  ret [a0; a1; a2; b4; b5; b9].

(** ** Stores whose slots are [int]s *)

(** Every element of [tree_] is a value of the type [int]. *)
Definition slots_are_ints (this : FenwickTree) : Prop :=
  Forall Int32.in_range (tree_ this).

(** * Lemmas *)

(** Linear arithmetic with the bounds of [int] unfolded. *)
Ltac int32_lia :=
  unfold Int32.in_range, Int32.min_signed, Int32.max_signed in *; lia.

(** ** Arithmetic of [Int32.wrap] *)

Lemma wrap_in_range z : Int32.in_range (Int32.wrap z).
Proof.
  unfold Int32.in_range, Int32.wrap, Int32.min_signed, Int32.max_signed.
  pose proof (Z.mod_pos_bound (z + 2147483648) 4294967296 ltac:(lia)). lia.
Qed.

Lemma wrap_small z : Int32.in_range z -> Int32.wrap z = z.
Proof.
  unfold Int32.in_range, Int32.wrap, Int32.min_signed, Int32.max_signed.
  intros H. rewrite Z.mod_small; lia.
Qed.

Lemma wrap_eqm z : exists q, Int32.wrap z = z + q * 4294967296.
Proof.
  unfold Int32.wrap. exists (- ((z + 2147483648) / 4294967296)).
  pose proof (Z.div_mod (z + 2147483648) 4294967296 ltac:(lia)). lia.
Qed.

Lemma wrap_congr a b q : a = b + q * 4294967296 -> Int32.wrap a = Int32.wrap b.
Proof.
  intros ->. unfold Int32.wrap.
  replace (b + q * 4294967296 + 2147483648)
    with (b + 2147483648 + q * 4294967296) by lia.
  now rewrite Z.mod_add by lia.
Qed.

Lemma wrap_add_l a b : Int32.wrap (Int32.wrap a + b) = Int32.wrap (a + b).
Proof. destruct (wrap_eqm a) as [q Hq]. apply (wrap_congr _ _ q). lia. Qed.

Lemma wrap_add_r a b : Int32.wrap (a + Int32.wrap b) = Int32.wrap (a + b).
Proof. destruct (wrap_eqm b) as [q Hq]. apply (wrap_congr _ _ q). lia. Qed.

Lemma wrap_wrap a : Int32.wrap (Int32.wrap a) = Int32.wrap a.
Proof. apply wrap_small, wrap_in_range. Qed.

(** ** The lowest set bit *)

Lemma land_odd_odd a b : Z.land (2 * a + 1) (2 * b + 1) = 2 * Z.land a b + 1.
Proof.
  apply Z.bits_inj'. intros n Hn. rewrite Z.land_spec.
  destruct (Z.eq_dec n 0) as [-> | Hne].
  - now rewrite !Z.testbit_odd_0.
  - replace n with (Z.succ (n - 1)) by lia.
    rewrite !Z.testbit_odd_succ by lia. now rewrite Z.land_spec.
Qed.

Lemma land_even_even a b : Z.land (2 * a) (2 * b) = 2 * Z.land a b.
Proof.
  apply Z.bits_inj'. intros n Hn. rewrite Z.land_spec.
  destruct (Z.eq_dec n 0) as [-> | Hne].
  - now rewrite !Z.testbit_even_0.
  - replace n with (Z.succ (n - 1)) by lia.
    rewrite !Z.testbit_even_succ by lia. now rewrite Z.land_spec.
Qed.

Lemma land_opp_pos (p : positive) :
  exists a m, 0 <= a /\ 0 <= m /\
    Z.land (Z.pos p) (- Z.pos p) = 2 ^ a /\ Z.pos p = 2 ^ a * (2 * m + 1).
Proof.
  induction p as [p IH | p IH |].
  - exists 0, (Z.pos p). repeat split; try lia.
    replace (Z.pos p~1) with (2 * Z.pos p + 1) by lia.
    replace (- (2 * Z.pos p + 1)) with (2 * Z.lnot (Z.pos p) + 1)
      by (unfold Z.lnot; lia).
    rewrite land_odd_odd, Z.land_lnot_diag. reflexivity.
  - destruct IH as (a & m & Ha & Hm & Hl & Hp). exists (a + 1), m.
    repeat split; try lia.
    + replace (Z.pos p~0) with (2 * Z.pos p) by lia.
      replace (- (2 * Z.pos p)) with (2 * (- Z.pos p)) by lia.
      rewrite land_even_even, Hl, Z.pow_add_r by lia. lia.
    + rewrite Z.pow_add_r by lia.
      replace (Z.pos p~0) with (2 * Z.pos p) by lia. rewrite Hp at 1. lia.
  - exists 0, 0. repeat split; try lia; reflexivity.
Qed.

(** For a positive [int], [index & -index] is the power of two [2^a]
    where [index = 2^a * (2 m + 1)]. *)
Lemma lowbit_decomp x :
  0 < x <= Int32.max_signed ->
  exists a m, 0 <= a /\ 0 <= m /\ lowbit x = 2 ^ a /\ x = 2 ^ a * (2 * m + 1).
Proof.
  intros Hx. unfold lowbit, Int32.and, Int32.neg.
  rewrite wrap_small by int32_lia.
  destruct x as [| p | p]; try lia. apply land_opp_pos.
Qed.

Lemma lowbit_pos x : 0 < x <= Int32.max_signed -> 0 < lowbit x <= x.
Proof.
  intros Hx. destruct (lowbit_decomp x Hx) as (a & m & Ha & Hm & -> & Hd).
  pose proof (Z.pow_pos_nonneg 2 a ltac:(lia) Ha). nia.
Qed.

Lemma pow2_cases a b :
  0 <= a -> 0 <= b ->
  a = b \/ (exists c, 0 < c /\ 2 ^ b = 2 * c * 2 ^ a)
        \/ (exists c, 0 < c /\ 2 ^ a = 2 * c * 2 ^ b).
Proof.
  intros Ha Hb. destruct (Z.lt_trichotomy a b) as [Hlt | [-> | Hgt]].
  - right; left. exists (2 ^ (b - a - 1)). split.
    + apply Z.pow_pos_nonneg; lia.
    + replace b with (1 + (b - a - 1) + a) at 1 by lia.
      rewrite !Z.pow_add_r by lia. lia.
  - now left.
  - right; right. exists (2 ^ (a - b - 1)). split.
    + apply Z.pow_pos_nonneg; lia.
    + replace a with (1 + (a - b - 1) + b) at 1 by lia.
      rewrite !Z.pow_add_r by lia. lia.
Qed.

Lemma coversb_spec i p : coversb i p = true <-> covers i p.
Proof. unfold coversb, covers. rewrite andb_true_iff. lia. Qed.

(** The step [x -> x + lowbit x] of the update loop visits exactly the
    slots above [x] that are responsible for [x]. *)
Lemma covers_step x i :
  0 < x -> x < i <= Int32.max_signed ->
  i - lowbit i < x <-> (x + lowbit x <= i /\ i - lowbit i < x + lowbit x).
Proof.
  intros Hx Hi.
  destruct (lowbit_decomp x ltac:(lia)) as (a & m & Ha & Hm & -> & Hdx).
  destruct (lowbit_decomp i ltac:(lia)) as (b & n & Hb & Hn & -> & Hdi).
  pose proof (Z.pow_pos_nonneg 2 a ltac:(lia) Ha) as HP.
  pose proof (Z.pow_pos_nonneg 2 b ltac:(lia) Hb) as HQ.
  destruct (pow2_cases a b Ha Hb) as [-> | [(c & Hc & E) | (c & Hc & E)]].
  - set (P := 2 ^ b) in *. clearbody P. subst x i.
    assert (m < n) by nia.
    split; [intros H' | intros [_ H']]; exfalso; assert (n <= m) by nia; lia.
  - set (P := 2 ^ a) in *. set (Q := 2 ^ b) in *. clearbody P Q.
    subst Q x i. set (T := c * (2 * n + 1)) in *.
    assert (HT : 2 * m + 1 < 2 * T) by (subst T; nia).
    split.
    + intros H'. split; [| lia].
      replace (2 * c * P * (2 * n + 1)) with (P * (2 * T)) by (subst T; lia).
      nia.
    + intros [_ H'].
      assert (2 * (T - c) < 2 * m + 2) by (subst T; nia).
      replace (2 * c * P * (2 * n + 1) - 2 * c * P)
        with (P * (2 * (T - c))) by (subst T; lia).
      nia.
  - set (P := 2 ^ a) in *. set (Q := 2 ^ b) in *. clearbody P Q.
    subst P x i. set (S := c * (2 * m + 1)) in *.
    assert (HS : 2 * S < 2 * n + 1) by (subst S; nia).
    split; [intros H' | intros [H1 H']]; exfalso.
    + assert (n < S) by (subst S; nia). lia.
    + assert (2 * S + 2 * c <= 2 * n + 1) by (subst S; nia).
      assert (2 * n < 2 * S + 2 * c) by (subst S; nia). lia.
Qed.

(** ** One turn of each loop *)

Lemma tree_add_ok i delta v this :
  0 <= i -> tree_ this !! Z.to_nat i = Some v ->
  tree_add i delta this =
    Ok (tt, mkFenwickTree (size_ this)
              (<[Z.to_nat i := Int32.add v delta]> (tree_ this))).
Proof.
  intros Hi Hv. unfold tree_add, bind, tree_at, tree_set.
  apply Z.leb_le in Hi as Hi'. rewrite Hi', Hv. cbn [size_ tree_].
  apply lookup_lt_Some in Hv.
  assert ((i <? Z.of_nat (length (tree_ this))) = true) as -> by lia.
  reflexivity.
Qed.

Lemma tree_add_fault i delta this :
  i < 0 \/ Z.of_nat (length (tree_ this)) <= i ->
  tree_add i delta this = Fault.
Proof.
  intros Hi. unfold tree_add, bind, tree_at.
  destruct (0 <=? i) eqn:E; [| reflexivity].
  apply Z.leb_le in E.
  rewrite (lookup_ge_None_2 (tree_ this) (Z.to_nat i)) by lia. reflexivity.
Qed.

Lemma update_loop_exit fuel x delta this :
  size_ this < x -> update_loop (S fuel) x delta this = Ok (tt, this).
Proof.
  intros Hx. cbn [update_loop]. unfold bind at 1, get_size.
  assert ((x <=? size_ this) = false) as -> by lia. reflexivity.
Qed.

Lemma update_loop_step fuel x delta v this :
  0 <= x <= size_ this -> tree_ this !! Z.to_nat x = Some v ->
  update_loop (S fuel) x delta this =
    update_loop fuel (Int32.add x (lowbit x)) delta
      (mkFenwickTree (size_ this)
         (<[Z.to_nat x := Int32.add v delta]> (tree_ this))).
Proof.
  intros Hx Hv. cbn [update_loop]. unfold bind at 1, get_size.
  assert ((x <=? size_ this) = true) as -> by lia.
  unfold bind. now rewrite (tree_add_ok x delta v) by (lia || assumption).
Qed.

Lemma update_loop_fault fuel x delta this :
  x <= size_ this -> x < 0 \/ Z.of_nat (length (tree_ this)) <= x ->
  update_loop (S fuel) x delta this = Fault.
Proof.
  intros Hx Hb. cbn [update_loop]. unfold bind at 1, get_size.
  assert ((x <=? size_ this) = true) as -> by lia.
  unfold bind. now rewrite tree_add_fault.
Qed.

Lemma query_loop_exit fuel y sum this :
  y <= 0 -> query_loop (S fuel) y sum this = Ok (sum, this).
Proof.
  intros Hy. cbn [query_loop]. assert ((0 <? y) = false) as -> by lia.
  reflexivity.
Qed.

Lemma query_loop_step fuel y sum v this :
  0 < y -> tree_ this !! Z.to_nat y = Some v ->
  query_loop (S fuel) y sum this =
    query_loop fuel (Int32.sub y (lowbit y)) (Int32.add sum v) this.
Proof.
  intros Hy Hv. cbn [query_loop]. assert ((0 <? y) = true) as -> by lia.
  unfold bind, tree_at. assert ((0 <=? y) = true) as -> by lia.
  now rewrite Hv.
Qed.

Lemma query_loop_fault fuel y sum this :
  0 < y -> Z.of_nat (length (tree_ this)) <= y ->
  query_loop (S fuel) y sum this = Fault.
Proof.
  intros Hy Hb. cbn [query_loop]. assert ((0 <? y) = true) as -> by lia.
  unfold bind, tree_at. assert ((0 <=? y) = true) as -> by lia.
  rewrite (lookup_ge_None_2 (tree_ this) (Z.to_nat y)) by lia. reflexivity.
Qed.

(** The next position of the update loop, with and without overflow. *)
Lemma next_up x :
  0 < x <= Int32.max_signed ->
  (x + lowbit x <= Int32.max_signed /\
   Int32.add x (lowbit x) = x + lowbit x) \/
  (Int32.max_signed < x + lowbit x /\ Int32.add x (lowbit x) < 0).
Proof.
  intros Hx. pose proof (lowbit_pos x Hx) as Hl.
  unfold Int32.max_signed in *.
  destruct (Z_le_gt_dec (x + lowbit x) 2147483647) as [Hle | Hgt].
  - left. split; [lia |]. apply wrap_small.
    int32_lia.
  - right. split; [lia |]. unfold Int32.add.
    rewrite (wrap_congr _ (x + lowbit x - 4294967296) 1) by lia.
    rewrite wrap_small; [lia |].
    int32_lia.
Qed.

(** The next position of the query loop. *)
Lemma next_down y :
  0 < y <= Int32.max_signed -> Int32.sub y (lowbit y) = y - lowbit y.
Proof.
  intros Hy. pose proof (lowbit_pos y Hy) as Hl. apply wrap_small.
  unfold Int32.in_range, Int32.min_signed, Int32.max_signed in *. lia.
Qed.

(** ** What a returning update loop has done *)

Lemma touched_below size x i : i < x -> touched size x i = false.
Proof. intros H. unfold touched, coversb. lia. Qed.

Lemma touched_self size x :
  0 < x <= size -> size <= Int32.max_signed -> touched size x x = true.
Proof.
  intros Hx Hs. pose proof (lowbit_pos x ltac:(lia)).
  unfold touched, coversb. lia.
Qed.

Lemma touched_next size x i :
  0 < x <= size -> size <= Int32.max_signed -> i <> x ->
  touched size (x + lowbit x) i = touched size x i.
Proof.
  intros Hx Hs Hne. unfold touched, coversb.
  destruct (Z_lt_le_dec size i) as [Hgt | Hle].
  { assert ((i <=? size) = false) as -> by lia. now rewrite !andb_false_r. }
  destruct (Z_lt_le_dec i x) as [Hlt | Hge].
  { pose proof (lowbit_pos x ltac:(lia)). lia. }
  pose proof (covers_step x i ltac:(lia) ltac:(lia)) as Hstep.
  apply eq_true_iff_eq. rewrite !andb_true_iff, !Z.ltb_lt, !Z.leb_le. lia.
Qed.

Lemma update_loop_ok fuel : forall x delta this r,
  0 < x -> size_ this <= Int32.max_signed ->
  update_loop fuel x delta this = Ok (tt, r) ->
  size_ r = size_ this /\
  length (tree_ r) = length (tree_ this) /\
  forall i, 0 <= i ->
    tree_ r !! Z.to_nat i =
      if touched (size_ this) x i
      then (fun v => Int32.add v delta) <$> (tree_ this !! Z.to_nat i)
      else tree_ this !! Z.to_nat i.
Proof.
  induction fuel as [| fuel IH]; intros x delta this r Hx Hs Hrun.
  { discriminate. }
  destruct (Z_lt_le_dec (size_ this) x) as [Hout | Hin].
  { rewrite update_loop_exit in Hrun by assumption.
    injection Hrun as <-. repeat split.
    intros i Hi. destruct (touched (size_ this) x i) eqn:E; [| reflexivity].
    unfold touched, coversb in E. lia. }
  destruct (tree_ this !! Z.to_nat x) as [v |] eqn:Hv.
  2:{ apply lookup_ge_None in Hv.
      rewrite update_loop_fault in Hrun by lia. discriminate. }
  rewrite (update_loop_step _ _ _ v) in Hrun by (lia || assumption).
  destruct (next_up x ltac:(lia)) as [[Hfit Hnext] | [Hover Hnext]].
  2:{ destruct fuel; [discriminate |].
      rewrite update_loop_fault in Hrun by (cbn [size_ tree_]; lia).
      discriminate. }
  rewrite Hnext in Hrun. pose proof (lowbit_pos x ltac:(lia)) as Hl.
  apply IH in Hrun; [| lia | assumption]. cbn [size_ tree_] in Hrun.
  destruct Hrun as (Hsz & Hlen & Hslots). rewrite length_insert in Hlen.
  repeat split; try assumption.
  intros i Hi. rewrite (Hslots i Hi).
  destruct (Z.eq_dec i x) as [-> | Hne].
  - rewrite touched_below, touched_self by lia.
    rewrite list_lookup_insert_eq by (apply lookup_lt_Some in Hv; lia).
    now rewrite Hv.
  - rewrite touched_next by (lia || assumption).
    rewrite list_lookup_insert_ne by lia. reflexivity.
Qed.

(** With fewer than [2^30] elements no position overflows and the loop
    returns after at most [size_ + 1 - x] turns. *)
Lemma update_loop_returns fuel : forall x delta this,
  0 < x -> size_ this < 1073741824 ->
  size_ this < Z.of_nat (length (tree_ this)) ->
  (Z.to_nat (size_ this + 1 - x) < fuel)%nat ->
  exists r, update_loop fuel x delta this = Ok (tt, r).
Proof.
  induction fuel as [| fuel IH]; intros x delta this Hx Hs Hlen Hfuel.
  { lia. }
  destruct (Z_lt_le_dec (size_ this) x) as [Hout | Hin].
  { exists this. now apply update_loop_exit. }
  destruct (lookup_lt_is_Some_2 (tree_ this) (Z.to_nat x) ltac:(lia))
    as [v Hv].
  rewrite (update_loop_step _ _ _ v) by (lia || assumption).
  pose proof (lowbit_pos x ltac:(int32_lia)) as Hl.
  destruct (next_up x ltac:(int32_lia))
    as [[Hfit Hnext] | [Hover Hnext]].
  2:{ unfold Int32.max_signed in Hover. lia. }
  rewrite Hnext. apply IH; cbn [size_ tree_]; try lia.
  rewrite length_insert. lia.
Qed.

(** How the loop ends depends on the sizes only, not on the values stored
    nor on the delta. *)
Lemma update_loop_shape fuel : forall x d d' this this',
  size_ this = size_ this' ->
  length (tree_ this) = length (tree_ this') ->
  shape (update_loop fuel x d this) = shape (update_loop fuel x d' this').
Proof.
  induction fuel as [| fuel IH]; intros x d d' this this' Hs Hlen.
  { reflexivity. }
  destruct (Z_lt_le_dec (size_ this) x) as [Hout | Hin].
  { now rewrite !update_loop_exit by lia. }
  destruct (Z_lt_le_dec x 0) as [Hneg | Hpos].
  { now rewrite !update_loop_fault by lia. }
  destruct (Z_lt_le_dec x (Z.of_nat (length (tree_ this)))) as [Hb | Hb].
  2:{ now rewrite !update_loop_fault by lia. }
  destruct (lookup_lt_is_Some_2 (tree_ this) (Z.to_nat x) ltac:(lia))
    as [v Hv].
  destruct (lookup_lt_is_Some_2 (tree_ this') (Z.to_nat x) ltac:(lia))
    as [v' Hv'].
  rewrite (update_loop_step _ _ _ v) by (lia || assumption).
  rewrite (update_loop_step _ _ _ v') by (lia || assumption).
  apply IH; cbn [size_ tree_]; [assumption |].
  now rewrite !length_insert.
Qed.

(** ** Sums over the update history *)

Lemma sum_where_app p ups ups' :
  sum_where p (ups ++ ups') = sum_where p ups + sum_where p ups'.
Proof.
  induction ups as [| [j d] ups IH]; cbn [app sum_where]; [lia |].
  destruct (p j); lia.
Qed.

Lemma sum_between_snoc ups j d lo hi :
  sum_between (ups ++ [(j, d)]) lo hi =
    sum_between ups lo hi + (if (lo <=? j) && (j <? hi) then d else 0).
Proof.
  unfold sum_between. rewrite sum_where_app. cbn [sum_where].
  destruct ((lo <=? j) && (j <? hi)); lia.
Qed.

Lemma sum_between_split ups lo mid hi :
  lo <= mid <= hi ->
  sum_between ups lo mid + sum_between ups mid hi = sum_between ups lo hi.
Proof.
  intros H. unfold sum_between.
  induction ups as [| [j d] ups IH]; cbn [sum_where]; [lia |].
  destruct (Z_lt_le_dec j lo), (Z_lt_le_dec j mid), (Z_lt_le_dec j hi);
    repeat match goal with
    | |- context [?a <=? ?b] =>
        first [ assert ((a <=? b) = true) as -> by lia
              | assert ((a <=? b) = false) as -> by lia ]
    | |- context [?a <? ?b] =>
        first [ assert ((a <? b) = true) as -> by lia
              | assert ((a <? b) = false) as -> by lia ]
    end; cbn [andb]; lia.
Qed.

Lemma sum_between_empty ups lo : sum_between ups lo lo = 0.
Proof.
  unfold sum_between. induction ups as [| [j d] ups IH]; cbn [sum_where].
  - reflexivity.
  - assert (((lo <=? j) && (j <? lo)) = false) as -> by lia. assumption.
Qed.

Lemma prefix_sum_between size ups k :
  indices_in_range size ups ->
  prefix_sum ups k = sum_between ups 0 (k + 1).
Proof.
  unfold indices_in_range, prefix_sum, sum_between.
  induction 1 as [| [j d] ups Hj _ IH]; cbn [sum_where]; [reflexivity |].
  cbn [fst] in Hj. rewrite IH.
  assert ((0 <=? j) = true) as -> by lia. cbn [andb].
  destruct (Z_le_gt_dec j k).
  - assert ((j <=? k) = true) as -> by lia.
    assert ((j <? k + 1) = true) as -> by lia. reflexivity.
  - assert ((j <=? k) = false) as -> by lia.
    assert ((j <? k + 1) = false) as -> by lia. reflexivity.
Qed.

(** ** The query loop *)

Lemma query_loop_pure fuel : forall y sum this v r,
  query_loop fuel y sum this = Ok (v, r) -> r = this.
Proof.
  induction fuel as [| fuel IH]; intros y sum this v r Hrun.
  { discriminate. }
  cbn [query_loop] in Hrun. destruct (0 <? y).
  - unfold bind, tree_at in Hrun. destruct (0 <=? y); [| discriminate].
    destruct (tree_ this !! Z.to_nat y); [| discriminate]. eauto.
  - now injection Hrun as _ <-.
Qed.

Lemma query_loop_returns fuel : forall y sum this,
  y <= Int32.max_signed -> y < Z.of_nat (length (tree_ this)) ->
  (Z.to_nat y < fuel)%nat ->
  exists v, query_loop fuel y sum this = Ok (v, this).
Proof.
  induction fuel as [| fuel IH]; intros y sum this Hy Hlen Hfuel.
  { lia. }
  destruct (Z_lt_le_dec 0 y) as [Hpos | Hzero].
  2:{ exists sum. now apply query_loop_exit. }
  destruct (lookup_lt_is_Some_2 (tree_ this) (Z.to_nat y) ltac:(lia))
    as [v Hv].
  rewrite (query_loop_step _ _ _ v) by assumption.
  pose proof (lowbit_pos y ltac:(lia)) as Hl.
  rewrite next_down by lia. apply IH; lia.
Qed.

(** On a tree that satisfies the invariant the loop adds up the slots of
    the ranges that partition [0 .. y - 1]. *)
Lemma query_loop_sum ups fuel : forall y sum this,
  Inv ups this -> 0 <= y <= size_ this -> Int32.in_range sum ->
  (Z.to_nat y < fuel)%nat ->
  query_loop fuel y sum this =
    Ok (Int32.wrap (sum + sum_between ups 0 y), this).
Proof.
  induction fuel as [| fuel IH]; intros y sum this HI Hy Hsum Hfuel.
  { lia. }
  pose proof HI as ([Hsize Hlen] & H0 & Hslots).
  destruct (Z.eq_dec y 0) as [-> | Hne].
  { rewrite query_loop_exit by lia. rewrite sum_between_empty, Z.add_0_r.
    now rewrite wrap_small. }
  pose proof (Hslots y ltac:(lia)) as Hv.
  rewrite (query_loop_step fuel y sum _ this ltac:(lia) Hv).
  pose proof (lowbit_pos y ltac:(lia)) as Hl.
  rewrite next_down by lia.
  rewrite IH; try lia.
  - unfold Int32.add. rewrite wrap_add_r, wrap_add_l.
    rewrite <- (sum_between_split ups 0 (y - lowbit y) y) by lia.
    do 3 f_equal. lia.
  - assumption.
  - apply wrap_in_range.
Qed.

(** Two objects whose slots agree up to position [y] give the same sum. *)
Lemma query_loop_agree fuel : forall y sum this this',
  y <= Int32.max_signed ->
  (forall i, 0 <= i <= y -> tree_ this !! Z.to_nat i = tree_ this' !! Z.to_nat i) ->
  value_of (query_loop fuel y sum this) = value_of (query_loop fuel y sum this').
Proof.
  induction fuel as [| fuel IH]; intros y sum this this' Hy Hagree.
  { reflexivity. }
  destruct (Z_lt_le_dec 0 y) as [Hpos | Hzero].
  2:{ now rewrite !query_loop_exit by lia. }
  pose proof (Hagree y ltac:(lia)) as Hyy.
  destruct (tree_ this !! Z.to_nat y) as [v |] eqn:Hv.
  - rewrite (query_loop_step _ _ _ v) by assumption.
    rewrite (query_loop_step _ _ _ v) by (symmetry in Hyy; assumption).
    pose proof (lowbit_pos y ltac:(lia)) as Hl.
    rewrite next_down by lia. apply IH; [lia |].
    intros i Hi. apply Hagree. lia.
  - symmetry in Hyy. apply lookup_ge_None in Hv, Hyy.
    now rewrite !query_loop_fault by lia.
Qed.

(** ** The constructor and the two member functions *)

Lemma new_ok size :
  0 <= size < Int32.max_signed ->
  FenwickTree_new size =
    Ok (mkFenwickTree size (replicate (Z.to_nat (size + 1)) 0)).
Proof.
  intros H. unfold FenwickTree_new, Int32.add.
  rewrite wrap_small by int32_lia.
  assert ((size + 1 <? 0) = false) as -> by lia. reflexivity.
Qed.

Lemma new_inv size this :
  Int32.in_range size -> 0 <= size ->
  FenwickTree_new size = Ok this -> Inv [] this /\ size_ this = size.
Proof.
  intros Hr Hs Hnew.
  destruct (Z.eq_dec size Int32.max_signed) as [-> | Hne].
  { discriminate. }
  unfold Int32.in_range in Hr.
  rewrite new_ok in Hnew by lia. injection Hnew as <-. cbn [size_ tree_].
  unfold Int32.min_signed, Int32.max_signed in *.
  split; [| reflexivity].
  split; [| split]; unfold wf, Int32.max_signed; cbn [size_ tree_].
  - split; [lia |]. rewrite length_replicate. lia.
  - apply lookup_replicate_2. lia.
  - intros i Hi. unfold sum_between. cbn [sum_where].
    rewrite lookup_replicate_2 by lia. reflexivity.
Qed.

Lemma succ_index this j :
  wf this -> 0 <= j < size_ this -> Int32.add j 1 = j + 1.
Proof.
  intros [Hs _] Hj. apply wrap_small.
  unfold Int32.in_range, Int32.min_signed, Int32.max_signed in *. lia.
Qed.

Lemma update_ok fuel this j delta r :
  wf this -> 0 <= j < size_ this ->
  update fuel j delta this = Ok (tt, r) ->
  wf r /\ size_ r = size_ this /\
  forall i, 0 <= i ->
    tree_ r !! Z.to_nat i =
      if touched (size_ this) (j + 1) i
      then (fun v => Int32.add v delta) <$> (tree_ this !! Z.to_nat i)
      else tree_ this !! Z.to_nat i.
Proof.
  intros Hwf Hj Hrun. unfold update in Hrun.
  rewrite (succ_index this) in Hrun by assumption.
  destruct Hwf as [Hs Hlen].
  apply update_loop_ok in Hrun; [| lia | lia].
  destruct Hrun as (Hsz & Hl & Hslots). repeat split; try lia.
  assumption.
Qed.

Lemma update_returns fuel this j delta :
  wf this -> size_ this < 1073741824 -> 0 <= j < size_ this ->
  (Z.to_nat (size_ this) < fuel)%nat ->
  exists r, update fuel j delta this = Ok (tt, r).
Proof.
  intros Hwf Hs Hj Hfuel. unfold update.
  rewrite (succ_index this) by assumption. destruct Hwf as [_ Hlen].
  apply update_loop_returns; lia.
Qed.

Lemma update_shape fuel j d d' this this' :
  size_ this = size_ this' -> length (tree_ this) = length (tree_ this') ->
  shape (update fuel j d this) = shape (update fuel j d' this').
Proof. intros. unfold update. now apply update_loop_shape. Qed.

Lemma update_inv fuel ups this j delta r :
  Inv ups this -> 0 <= j < size_ this ->
  update fuel j delta this = Ok (tt, r) ->
  Inv (ups ++ [(j, delta)]) r /\ size_ r = size_ this.
Proof.
  intros (Hwf & H0 & Hslots) Hj Hrun.
  destruct (update_ok _ _ _ _ _ Hwf Hj Hrun) as (Hwf' & Hsz & Hnew).
  split; [| assumption]. split; [assumption |]. split.
  - pose proof (Hnew 0 ltac:(lia)) as E. rewrite touched_below in E by lia.
    change (Z.to_nat 0) with 0%nat in E. congruence.
  - intros i Hi. rewrite Hsz in Hi. rewrite (Hnew i ltac:(lia)).
    rewrite (Hslots i Hi), sum_between_snoc. unfold touched, coversb.
    assert ((i <=? size_ this) = true) as -> by lia. rewrite andb_true_r.
    replace (i - lowbit i <? j + 1) with (i - lowbit i <=? j) by lia.
    replace (j + 1 <=? i) with (j <? i) by lia.
    destruct ((i - lowbit i <=? j) && (j <? i)); cbn [fmap option_fmap option_map].
    + unfold Int32.add. now rewrite wrap_add_l.
    + now rewrite Z.add_0_r.
Qed.

Lemma run_updates_inv fuel : forall ups pre this r,
  Inv pre this -> indices_in_range (size_ this) ups ->
  run_updates fuel ups this = Ok (tt, r) ->
  Inv (pre ++ ups) r /\ size_ r = size_ this.
Proof.
  induction ups as [| [j d] ups IH]; intros pre this r HI Hin Hrun.
  { injection Hrun as <-. now rewrite app_nil_r. }
  cbn [run_updates] in Hrun. unfold bind in Hrun.
  destruct (update fuel j d this) as [[[] mid] | | |] eqn:Hup;
    try discriminate.
  apply Forall_cons in Hin as [Hj Hin]. cbn [fst] in Hj.
  destruct (update_inv _ _ _ _ _ _ HI Hj Hup) as [HI' Hsz].
  rewrite <- Hsz in Hin.
  destruct (IH _ _ _ HI' Hin Hrun) as [HI'' Hsz'].
  rewrite <- app_assoc in HI''. split; [assumption | congruence].
Qed.

Lemma run_updates_returns fuel : forall ups this,
  wf this -> size_ this < 1073741824 ->
  indices_in_range (size_ this) ups ->
  (Z.to_nat (size_ this) < fuel)%nat ->
  exists r, run_updates fuel ups this = Ok (tt, r).
Proof.
  induction ups as [| [j d] ups IH]; intros this Hwf Hs Hin Hfuel.
  { now exists this. }
  apply Forall_cons in Hin as [Hj Hin]. cbn [fst] in Hj.
  destruct (update_returns fuel this j d Hwf Hs Hj Hfuel) as [mid Hup].
  destruct (update_ok _ _ _ _ _ Hwf Hj Hup) as (Hwf' & Hsz & _).
  cbn [run_updates]. unfold bind. rewrite Hup.
  apply IH; rewrite ?Hsz; assumption.
Qed.

Lemma query_pure fuel k this v r :
  query fuel k this = Ok (v, r) -> r = this.
Proof. unfold query. apply query_loop_pure. Qed.

Lemma query_returns fuel this k :
  wf this -> 0 <= k < size_ this -> (Z.to_nat (k + 1) < fuel)%nat ->
  exists v, query fuel k this = Ok (v, this).
Proof.
  intros Hwf Hk Hfuel. unfold query.
  rewrite (succ_index this) by assumption. destruct Hwf as [Hs Hlen].
  apply query_loop_returns; lia.
Qed.

Lemma query_sum fuel ups this k :
  Inv ups this -> 0 <= k < size_ this -> (Z.to_nat (k + 1) < fuel)%nat ->
  query fuel k this = Ok (Int32.wrap (sum_between ups 0 (k + 1)), this).
Proof.
  intros HI Hk Hfuel. unfold query.
  rewrite (succ_index this) by (assumption || apply HI).
  rewrite (query_loop_sum ups); try (assumption || lia).
  - reflexivity.
  - int32_lia.
Qed.

(** ** A logarithmic number of turns *)

(** Going up, the lowest set bit at least doubles. *)
Lemma lowbit_next_up x :
  0 < x <= Int32.max_signed -> x + lowbit x <= Int32.max_signed ->
  2 * lowbit x <= lowbit (x + lowbit x).
Proof.
  intros Hx Hfit. pose proof (lowbit_pos x ltac:(lia)) as Hl.
  destruct (lowbit_decomp x ltac:(lia)) as (a & m & Ha & Hm & Ela & Hdx).
  destruct (lowbit_decomp (x + lowbit x) ltac:(lia))
    as (b & n & Hb & Hn & Elb & Hdx').
  rewrite Ela in *. rewrite Elb.
  pose proof (Z.pow_pos_nonneg 2 a ltac:(lia) Ha) as HP.
  pose proof (Z.pow_pos_nonneg 2 b ltac:(lia) Hb) as HQ.
  destruct (pow2_cases a b Ha Hb) as [-> | [(c & Hc & E) | (c & Hc & E)]].
  - exfalso. set (P := 2 ^ b) in *. clearbody P.
    assert (2 * m + 2 = 2 * n + 1) by nia. lia.
  - rewrite E. nia.
  - exfalso. set (P := 2 ^ a) in *. set (Q := 2 ^ b) in *. clearbody P Q.
    subst P. assert (2 * (c * (2 * m + 2)) = 2 * n + 1) by nia. lia.
Qed.

(** Going down, the lowest set bit at least doubles until the position is 0. *)
Lemma lowbit_next_down y :
  0 < y <= Int32.max_signed -> y - lowbit y <> 0 ->
  2 * lowbit y <= lowbit (y - lowbit y).
Proof.
  intros Hy Hne. pose proof (lowbit_pos y Hy) as Hl.
  destruct (lowbit_decomp y Hy) as (a & m & Ha & Hm & Ela & Hdy).
  destruct (lowbit_decomp (y - lowbit y) ltac:(lia))
    as (b & n & Hb & Hn & Elb & Hdy').
  rewrite Ela in *. rewrite Elb.
  pose proof (Z.pow_pos_nonneg 2 a ltac:(lia) Ha) as HP.
  pose proof (Z.pow_pos_nonneg 2 b ltac:(lia) Hb) as HQ.
  destruct (pow2_cases a b Ha Hb) as [-> | [(c & Hc & E) | (c & Hc & E)]].
  - exfalso. set (P := 2 ^ b) in *. clearbody P.
    assert (2 * m = 2 * n + 1) by nia. lia.
  - rewrite E. nia.
  - exfalso. set (P := 2 ^ a) in *. set (Q := 2 ^ b) in *. clearbody P Q.
    subst P. assert (2 * (c * (2 * m)) = 2 * n + 1) by nia. lia.
Qed.

Lemma update_loop_returns_log fuel : forall x delta this,
  0 < x -> size_ this < 1073741824 ->
  size_ this < Z.of_nat (length (tree_ this)) ->
  size_ this < lowbit x * 2 ^ Z.of_nat fuel ->
  exists r, update_loop (S fuel) x delta this = Ok (tt, r).
Proof.
  induction fuel as [| fuel IH]; intros x delta this Hx Hs Hlen Hpot;
    (destruct (Z_lt_le_dec (size_ this) x) as [Hout | Hin];
     [exists this; now apply update_loop_exit |]);
    pose proof (lowbit_pos x ltac:(int32_lia)) as Hl.
  { cbn in Hpot. lia. }
  destruct (lookup_lt_is_Some_2 (tree_ this) (Z.to_nat x) ltac:(lia))
    as [v Hv].
  rewrite (update_loop_step _ _ _ v) by (lia || assumption).
  destruct (next_up x ltac:(int32_lia))
    as [[Hfit Hnext] | [Hover Hnext]].
  2:{ unfold Int32.max_signed in Hover. lia. }
  rewrite Hnext. pose proof (lowbit_next_up x ltac:(int32_lia) Hfit) as Hdbl.
  apply IH; cbn [size_ tree_]; try lia.
  - rewrite length_insert. lia.
  - rewrite Nat2Z.inj_succ, Z.pow_succ_r in Hpot by lia.
    pose proof (Z.pow_pos_nonneg 2 (Z.of_nat fuel) ltac:(lia) ltac:(lia)).
    nia.
Qed.

Lemma query_loop_returns_log fuel : forall y sum this,
  0 <= y <= Int32.max_signed -> y < Z.of_nat (length (tree_ this)) ->
  y = 0 \/ y < lowbit y * 2 ^ Z.of_nat fuel ->
  exists v, query_loop (S fuel) y sum this = Ok (v, this).
Proof.
  induction fuel as [| fuel IH]; intros y sum this Hy Hlen Hpot;
    (destruct (Z.eq_dec y 0) as [-> | Hne];
     [exists sum; now apply query_loop_exit |]);
    pose proof (lowbit_pos y ltac:(lia)) as Hl.
  { cbn in Hpot. lia. }
  destruct (lookup_lt_is_Some_2 (tree_ this) (Z.to_nat y) ltac:(lia))
    as [v Hv].
  rewrite (query_loop_step _ _ _ v) by (lia || assumption).
  rewrite next_down by lia. apply IH; try lia.
  destruct (Z.eq_dec (y - lowbit y) 0) as [Hz | Hnz]; [now left | right].
  pose proof (lowbit_next_down y ltac:(lia) Hnz) as Hdbl.
  destruct Hpot as [? | Hpot]; [lia |].
  rewrite Nat2Z.inj_succ, Z.pow_succ_r in Hpot by lia.
  pose proof (Z.pow_pos_nonneg 2 (Z.of_nat fuel) ltac:(lia) ltac:(lia)).
  nia.
Qed.

Lemma pow2_ge_32 fuel : (32 <= fuel)%nat -> 2147483648 <= 2 ^ Z.of_nat (fuel - 1).
Proof.
  intros H. change 2147483648 with (2 ^ 31).
  apply Z.pow_le_mono_r; lia.
Qed.

(** Thirty-two evaluations of the loop condition are enough for [update]. *)
Lemma update_returns_32 fuel this j delta :
  wf this -> size_ this < 1073741824 -> 0 <= j < size_ this ->
  (32 <= fuel)%nat ->
  exists r, update fuel j delta this = Ok (tt, r).
Proof.
  intros Hwf Hs Hj Hfuel. unfold update.
  rewrite (succ_index this) by assumption. destruct Hwf as [_ Hlen].
  replace fuel with (S (fuel - 1)) by lia.
  pose proof (pow2_ge_32 fuel Hfuel) as Hp.
  pose proof (lowbit_pos (j + 1) ltac:(int32_lia)) as Hl.
  apply update_loop_returns_log; try lia; nia.
Qed.

(** Thirty-two evaluations of the loop condition are enough for [query]. *)
Lemma query_returns_32 fuel this k :
  wf this -> 0 <= k < size_ this -> (32 <= fuel)%nat ->
  exists v, query fuel k this = Ok (v, this).
Proof.
  intros Hwf Hk Hfuel. unfold query.
  rewrite (succ_index this) by assumption. destruct Hwf as [Hs Hlen].
  replace fuel with (S (fuel - 1)) by lia.
  pose proof (pow2_ge_32 fuel Hfuel) as Hp.
  pose proof (lowbit_pos (k + 1) ltac:(lia)) as Hl.
  apply query_loop_returns_log; try lia. right.
  unfold Int32.max_signed in *. nia.
Qed.

(** * Properties *)

(** ** Prefix sums *)

(** C1 (fails as stated): on a store of capacity 1, after [update(0, 2147483647)]
    and [update(0, 1)] the deltas at index 0 add up to 2147483648, which is
    not an [int]; [query(0)] returns -2147483648. *)
Lemma query_exact_sum_counterexample :
  exists st0 st,
    FenwickTree_new 1 = Ok st0 /\
    (forall n, run_updates (2 + n) [(0, 2147483647); (0, 1)] st0 = Ok (tt, st)) /\
    (forall n, query (2 + n) 0 st = Ok (-2147483648, st)) /\
    prefix_sum [(0, 2147483647); (0, 1)] 0 = 2147483648.
Proof.
  exists (mkFenwickTree 1 [0; 0]), (mkFenwickTree 1 [0; -2147483648]).
  repeat split; intros; vm_compute; reflexivity.
Qed.

(** C1 (amended): on a store of capacity [N], after any sequence of update
    calls with indices in [0, N) that have returned, [query(k)] with
    [0 <= k < N] returns the sum of the deltas of the updates at indices
    [j <= k], reduced to a 32-bit [int]; it is exactly that sum whenever
    the sum is representable. The updates all return when [N < 2^30]. *)
Theorem query_after_updates N ups st0 k :
  Int32.in_range N -> FenwickTree_new N = Ok st0 ->
  indices_in_range N ups -> 0 <= k < N ->
  (forall fuel st fuel',
      run_updates fuel ups st0 = Ok (tt, st) ->
      (Z.to_nat (k + 1) < fuel')%nat ->
      query fuel' k st = Ok (Int32.wrap (prefix_sum ups k), st) /\
      (Int32.in_range (prefix_sum ups k) ->
       query fuel' k st = Ok (prefix_sum ups k, st))) /\
  (N < 1073741824 ->
   forall fuel, (Z.to_nat N < fuel)%nat ->
     exists st, run_updates fuel ups st0 = Ok (tt, st)).
Proof.
  intros HN Hnew Hin Hk.
  destruct (new_inv N st0 HN ltac:(lia) Hnew) as [HI Hsz]. split.
  - intros fuel st fuel' Hrun Hfuel. rewrite <- Hsz in Hin.
    destruct (run_updates_inv _ _ _ _ _ HI Hin Hrun) as [HI' Hsz'].
    cbn [app] in HI'. rewrite Hsz in Hin.
    rewrite (prefix_sum_between N) by assumption.
    assert (query fuel' k st =
            Ok (Int32.wrap (sum_between ups 0 (k + 1)), st)) as Hq
      by (apply query_sum; [assumption | lia | assumption]).
    split; [assumption |]. intros Hfit. now rewrite Hq, wrap_small.
  - intros Hsmall fuel Hfuel. apply run_updates_returns.
    + apply HI.
    + lia.
    + now rewrite Hsz.
    + now rewrite Hsz.
Qed.

Lemma query_after_updates_witness :
  exists st0 st,
    FenwickTree_new 4 = Ok st0 /\
    run_updates 5 [(2, 7); (0, -3)] st0 = Ok (tt, st) /\
    query 5 3 st = Ok (4, st).
Proof.
  exists (mkFenwickTree 4 [0; 0; 0; 0; 0]), (mkFenwickTree 4 [0; -3; -3; 7; 4]).
  split; [reflexivity |]. split; [reflexivity |].
  refine (proj1 (proj1 (query_after_updates 4 [(2, 7); (0, -3)]
                          (mkFenwickTree 4 [0; 0; 0; 0; 0]) 3 _ _ _ _)
                   5%nat (mkFenwickTree 4 [0; -3; -3; 7; 4]) 5%nat _ _)).
  - int32_lia.
  - reflexivity.
  - repeat constructor; simpl; lia.
  - lia.
  - reflexivity.
  - simpl. lia.
Defined.

(** C2: for every capacity [N] and every [k] in [0, N), a freshly
    constructed store of capacity [N] answers [query(k)] with 0. *)
Theorem fresh_store_queries_zero N k fuel :
  Int32.in_range N -> 0 <= k < N -> (Z.to_nat (k + 1) < fuel)%nat ->
  (N < Int32.max_signed -> exists this, FenwickTree_new N = Ok this) /\
  (forall this, FenwickTree_new N = Ok this -> query fuel k this = Ok (0, this)).
Proof.
  intros HN Hk Hfuel. split.
  - intros Hlt. eexists. apply new_ok. lia.
  - intros this Hnew.
    destruct (new_inv N this HN ltac:(lia) Hnew) as [HI Hsz].
    rewrite (query_sum fuel [] this k HI) by (lia || assumption).
    reflexivity.
Qed.

Lemma fresh_store_queries_zero_witness :
  query 4 2 (mkFenwickTree 5 [0; 0; 0; 0; 0; 0]) =
    Ok (0, mkFenwickTree 5 [0; 0; 0; 0; 0; 0]).
Proof.
  refine (proj2 (fresh_store_queries_zero 5 2 4%nat _ _ _) _ _).
  - int32_lia.
  - lia.
  - simpl. lia.
  - reflexivity.
Defined.

(** ** Frame and accumulation *)

(** C3: on every store, for every in-range index [j], every delta and
    every [k] with [0 <= k < j], [update(j, delta)] does not change what
    [query(k)] returns. The update itself returns when the capacity is
    below [2^30]. *)
Theorem update_keeps_lower_queries this j delta k fuel :
  wf this -> 0 <= j < size_ this -> 0 <= k < j ->
  (forall r, update fuel j delta this = Ok (tt, r) ->
     forall fuel', value_of (query fuel' k r) = value_of (query fuel' k this)) /\
  (size_ this < 1073741824 -> (Z.to_nat (size_ this) < fuel)%nat ->
     exists r, update fuel j delta this = Ok (tt, r)).
Proof.
  intros Hwf Hj Hk. split.
  - intros r Hrun fuel'.
    destruct (update_ok _ _ _ _ _ Hwf Hj Hrun) as (_ & _ & Hslots).
    unfold query. apply query_loop_agree.
    + rewrite (succ_index this) by (assumption || lia).
      destruct Hwf as [Hs _]. lia.
    + intros i Hi.
      rewrite (succ_index this) in Hi by (assumption || lia).
      rewrite (Hslots i ltac:(lia)). now rewrite touched_below by lia.
  - intros Hs Hfuel. now apply update_returns.
Qed.

Lemma update_keeps_lower_queries_witness :
  value_of (query 4 1 (mkFenwickTree 5 [0; 1; 3; 9; 12; 0])) =
  value_of (query 4 1 (mkFenwickTree 5 [0; 1; 3; 0; 3; 0])).
Proof.
  refine (proj1 (update_keeps_lower_queries
                   (mkFenwickTree 5 [0; 1; 3; 0; 3; 0]) 2 9 1 4%nat _ _ _)
            (mkFenwickTree 5 [0; 1; 3; 9; 12; 0]) _ 4%nat).
  - split; simpl; int32_lia.
  - simpl. lia.
  - lia.
  - reflexivity.
Defined.

(** C4: on every store, for every in-range index [j] and every delta,
    [update(j, delta)] twice and [update(j, 2 * delta)] once end in the
    same way with the same object, so that every query afterwards returns
    the same value. Both return when the capacity is below [2^30]. *)
Theorem update_twice (this : FenwickTree) (j delta : Z) (fuel : nat) :
  wf this -> 0 <= j < size_ this ->
  (update fuel j delta >> update fuel j delta) this =
    update fuel j (Int32.mul 2 delta) this /\
  (forall fuel' k,
     value_of ((update fuel j delta >> update fuel j delta >> query fuel' k) this) =
     value_of ((update fuel j (Int32.mul 2 delta) >> query fuel' k) this)) /\
  (size_ this < 1073741824 -> (Z.to_nat (size_ this) < fuel)%nat ->
     exists r, update fuel j (Int32.mul 2 delta) this = Ok (tt, r)).
Proof.
  intros Hwf Hj.
  assert ((update fuel j delta >> update fuel j delta) this =
          update fuel j (Int32.mul 2 delta) this) as Heq.
  { pose proof (update_shape fuel j delta (Int32.mul 2 delta) this this
                  eq_refl eq_refl) as Hsh.
    unfold bind.
    destruct (update fuel j delta this) as [[[] mid] | | |] eqn:Hup;
      destruct (update fuel j (Int32.mul 2 delta) this)
        as [[[] once] | | |] eqn:Hup2; try discriminate; try reflexivity.
    destruct (update_ok _ _ _ _ _ Hwf Hj Hup) as (Hwf1 & Hsz1 & Hs1).
    destruct (update_ok _ _ _ _ _ Hwf Hj Hup2) as (Hwf2 & Hsz2 & Hs2).
    pose proof (update_shape fuel j delta delta this mid
                  (eq_sym Hsz1)) as Hsh'.
    rewrite Hup in Hsh'.
    destruct (update fuel j delta mid) as [[[] twice] | | |] eqn:Hup3.
    2-4: (exfalso; destruct Hwf as [_ Hl], Hwf1 as [_ Hl1];
          assert (length (tree_ this) = length (tree_ mid)) as Hlen by lia;
          specialize (Hsh' Hlen); discriminate).
    rewrite <- Hsz1 in Hj.
    destruct (update_ok _ _ _ _ _ Hwf1 Hj Hup3) as (Hwf3 & Hsz3 & Hs3).
    do 2 f_equal. destruct twice as [s3 t3], once as [s2 t2].
    cbn [size_ tree_] in *. f_equal; [congruence |].
    apply list_eq. intros n.
    specialize (Hs1 (Z.of_nat n) ltac:(lia)).
    specialize (Hs2 (Z.of_nat n) ltac:(lia)).
    specialize (Hs3 (Z.of_nat n) ltac:(lia)).
    rewrite Nat2Z.id in Hs1, Hs2, Hs3. rewrite Hs3, Hs2, Hs1, Hsz1.
    destruct (touched (size_ this) (j + 1) (Z.of_nat n)); [| reflexivity].
    destruct (tree_ this !! n) as [v |];
      cbn [fmap option_fmap option_map]; [| reflexivity].
    f_equal.
    unfold Int32.add, Int32.mul. rewrite wrap_add_l, wrap_add_r.
    f_equal. lia. }
  split; [assumption |]. split.
  - intros fuel' k. unfold bind in *. now rewrite Heq.
  - intros Hs Hfuel. now apply update_returns.
Qed.

Lemma update_twice_witness :
  (update 4 2 9 >> update 4 2 9) (mkFenwickTree 5 [0; 1; 3; 0; 3; 0]) =
    update 4 2 (Int32.mul 2 9) (mkFenwickTree 5 [0; 1; 3; 0; 3; 0]).
Proof.
  refine (proj1 (update_twice (mkFenwickTree 5 [0; 1; 3; 0; 3; 0]) 2 9 4%nat _ _)).
  - split; simpl; int32_lia.
  - simpl. lia.
Defined.

(** ** Queries read only *)

(** C7: [query] is a pure read. On every store and for in-range indices,
    [query(k)] leaves the object as it was, returns the same value when it
    is called again, and two queries return the same values in either
    order. *)
Theorem query_is_pure_read (this : FenwickTree) (k1 k2 : Z) (fuel : nat) :
  wf this -> 0 <= k1 < size_ this -> 0 <= k2 < size_ this ->
  (Z.to_nat (size_ this) < fuel)%nat ->
  exists v1 v2,
    query fuel k1 this = Ok (v1, this) /\
    query fuel k2 this = Ok (v2, this) /\
    (query fuel k1 >> query fuel k1) this = Ok (v1, this) /\
    (let* a := query fuel k1 in let* b := query fuel k2 in ret (a, b)) this =
      Ok ((v1, v2), this) /\
    (let* b := query fuel k2 in let* a := query fuel k1 in ret (a, b)) this =
      Ok ((v1, v2), this).
Proof.
  intros Hwf Hk1 Hk2 Hfuel.
  destruct (query_returns fuel this k1 Hwf Hk1 ltac:(lia)) as [v1 Hq1].
  destruct (query_returns fuel this k2 Hwf Hk2 ltac:(lia)) as [v2 Hq2].
  exists v1, v2. unfold bind, ret. rewrite Hq1, Hq2, ?Hq1. repeat split.
Qed.

Lemma query_is_pure_read_witness :
  exists v1 v2,
    (let* a := query 6 1 in let* b := query 6 4 in ret (a, b))
      (mkFenwickTree 5 [0; 1; 3; 3; 10; 5]) =
      Ok ((v1, v2), mkFenwickTree 5 [0; 1; 3; 3; 10; 5]) /\
    (let* b := query 6 4 in let* a := query 6 1 in ret (a, b))
      (mkFenwickTree 5 [0; 1; 3; 3; 10; 5]) =
      Ok ((v1, v2), mkFenwickTree 5 [0; 1; 3; 3; 10; 5]).
Proof.
  destruct (query_is_pure_read (mkFenwickTree 5 [0; 1; 3; 3; 10; 5]) 1 4 6%nat)
    as (v1 & v2 & _ & _ & _ & H12 & H21).
  - split; simpl; int32_lia.
  - simpl. lia.
  - simpl. lia.
  - simpl. lia.
  - exists v1, v2. split; assumption.
Defined.

(** ** Termination *)

Lemma update_overflows (this : FenwickTree) (fuel : nat) (delta : Z) r :
  size_ this = 1073741824 ->
  update fuel 1073741823 delta this <> Ok (tt, r).
Proof.
  intros Hs. unfold update.
  change (Int32.add 1073741823 1) with 1073741824.
  destruct fuel as [| fuel]; [discriminate |].
  destruct (tree_ this !! Z.to_nat 1073741824) as [v |] eqn:Hv.
  - rewrite (update_loop_step _ _ _ v) by (lia || assumption).
    change (Int32.add 1073741824 (lowbit 1073741824)) with (-2147483648).
    destruct fuel as [| fuel]; [discriminate |].
    rewrite update_loop_fault by (cbn [size_ tree_]; lia). discriminate.
  - apply lookup_ge_None in Hv.
    rewrite update_loop_fault by lia. discriminate.
Qed.

Lemma update_overflow_faults (this : FenwickTree) (n : nat) (delta : Z) :
  size_ this = 1073741824 ->
  1073741824 < Z.of_nat (length (tree_ this)) ->
  update (S (S n)) 1073741823 delta this = Fault.
Proof.
  intros Hs Hlen. unfold update.
  change (Int32.add 1073741823 1) with 1073741824.
  destruct (lookup_lt_is_Some_2 (tree_ this) (Z.to_nat 1073741824) ltac:(lia))
    as [v Hv].
  rewrite (update_loop_step _ _ _ v) by (lia || assumption).
  change (Int32.add 1073741824 (lowbit 1073741824)) with (-2147483648).
  apply update_loop_fault; cbn [size_ tree_]; lia.
Qed.

(** C8 (fails as stated): on a store of capacity [2^30] the call
    [update(2^30 - 1, delta)] has an in-range index, yet its position
    [2^30 + 2^30] overflows [int]: the loop does not stop by the position
    exceeding the capacity, it goes on at position [-2^31] and indexes
    outside the vector. *)
Lemma update_termination_counterexample :
  exists big,
    FenwickTree_new 1073741824 = Ok big /\
    0 <= 1073741823 < size_ big /\
    (forall n delta, update (S (S n)) 1073741823 delta big = Fault) /\
    (forall fuel delta r, update fuel 1073741823 delta big <> Ok (tt, r)).
Proof.
  eexists. split; [apply new_ok; int32_lia |].
  cbn [size_]. split; [lia |]. split.
  - intros n delta. apply update_overflow_faults; cbn [size_ tree_].
    + reflexivity.
    + rewrite length_replicate. lia.
  - intros fuel delta r. now apply update_overflows.
Qed.

(** C8 (amended): every call to [query] with an in-range index returns,
    its loop stopping once the position reaches 0, and on a store of
    capacity below [2^30] every call to [update] with an in-range index
    returns, its loop stopping once the position exceeds the capacity.
    Thirty-two evaluations of the loop condition are enough, and so are
    [size_ + 1] of them. *)
Theorem calls_terminate (this : FenwickTree) (index delta : Z) (fuel : nat) :
  wf this -> 0 <= index < size_ this ->
  (32 <= fuel)%nat \/ (Z.to_nat (size_ this) < fuel)%nat ->
  (exists v, query fuel index this = Ok (v, this)) /\
  (size_ this < 1073741824 -> exists r, update fuel index delta this = Ok (tt, r)).
Proof.
  intros Hwf Hi [Hfuel | Hfuel]; split.
  - now apply query_returns_32.
  - intros Hs. now apply update_returns_32.
  - apply query_returns; [assumption | assumption | lia].
  - intros Hs. now apply update_returns.
Qed.

Lemma calls_terminate_witness :
  (exists v, query 32 4 (mkFenwickTree 5 [0; 1; 3; 3; 10; 5]) =
               Ok (v, mkFenwickTree 5 [0; 1; 3; 3; 10; 5])) /\
  (exists r, update 6 0 7 (mkFenwickTree 5 [0; 1; 3; 3; 10; 5]) = Ok (tt, r)).
Proof.
  destruct (calls_terminate (mkFenwickTree 5 [0; 1; 3; 3; 10; 5]) 4 7 32%nat)
    as [Hq _].
  { split; simpl; int32_lia. }
  { simpl. lia. }
  { left. lia. }
  destruct (calls_terminate (mkFenwickTree 5 [0; 1; 3; 3; 10; 5]) 0 7 6%nat)
    as [_ Hu].
  { split; simpl; int32_lia. }
  { simpl. lia. }
  { right. simpl. lia. }
  split; [exact Hq | apply Hu; simpl; lia].
Defined.

(** ** Indices outside the range *)

Lemma update_past_size (this : FenwickTree) (index delta : Z) (fuel : nat) :
  Int32.in_range index -> size_ this <= index < Int32.max_signed ->
  update (S fuel) index delta this = Ok (tt, this).
Proof.
  intros Hr Hi. unfold update, Int32.add.
  rewrite wrap_small by int32_lia.
  apply update_loop_exit. lia.
Qed.

Lemma query_negative (this : FenwickTree) (index : Z) (fuel : nat) :
  Int32.in_range index -> index < 0 ->
  query (S fuel) index this = Ok (0, this).
Proof.
  intros Hr Hi. unfold query, Int32.add.
  rewrite wrap_small by int32_lia.
  apply query_loop_exit. lia.
Qed.

(** [query] with an index at or past the capacity reads outside the vector. *)
Lemma query_past_size (this : FenwickTree) (index : Z) (fuel : nat) :
  wf this -> size_ this <= index < Int32.max_signed ->
  query (S fuel) index this = Fault.
Proof.
  intros [Hs Hlen] Hi. unfold query, Int32.add.
  rewrite wrap_small by int32_lia.
  apply query_loop_fault; lia.
Qed.

(** [update] with an index below -1 writes outside the vector. *)
Lemma update_below_minus_one (this : FenwickTree) (index delta : Z) (fuel : nat) :
  wf this -> Int32.in_range index -> index < -1 ->
  update (S fuel) index delta this = Fault.
Proof.
  intros [Hs Hlen] Hr Hi. unfold update, Int32.add.
  rewrite wrap_small by int32_lia.
  apply update_loop_fault; lia.
Qed.

Lemma update_loop_at_zero fuel : forall (this : FenwickTree) (delta : Z),
  0 <= size_ this -> (0 < length (tree_ this))%nat ->
  update_loop fuel 0 delta this = Timeout.
Proof.
  induction fuel as [| fuel IH]; intros this delta Hs Hlen.
  { reflexivity. }
  destruct (lookup_lt_is_Some_2 (tree_ this) (Z.to_nat 0) ltac:(simpl; lia))
    as [v Hv].
  rewrite (update_loop_step _ _ _ v) by (lia || assumption).
  change (Int32.add 0 (lowbit 0)) with 0. apply IH; cbn [size_ tree_].
  - assumption.
  - now rewrite length_insert.
Qed.

(** [update(-1, delta)] stays at position 0 and never returns. *)
Lemma update_minus_one_diverges (this : FenwickTree) (delta : Z) (fuel : nat) :
  wf this -> update fuel (-1) delta this = Timeout.
Proof.
  intros [Hs Hlen]. unfold update. change (Int32.add (-1) 1) with 0.
  apply update_loop_at_zero; lia.
Qed.

(** C10 (fails as stated): on a store of capacity 5 the index 2147483647
    is at least the capacity, yet [index++] wraps to -2147483648, the loop
    is entered and it writes outside the vector. *)
Lemma update_past_capacity_counterexample :
  exists st,
    FenwickTree_new 5 = Ok st /\ size_ st <= 2147483647 /\
    Int32.in_range 2147483647 /\
    forall n delta, update (S n) 2147483647 delta st = Fault.
Proof.
  exists (mkFenwickTree 5 [0; 0; 0; 0; 0; 0]).
  split; [reflexivity |]. split; [simpl; lia |]. split.
  - int32_lia.
  - intros n delta. unfold update.
    change (Int32.add 2147483647 1) with (-2147483648).
    apply update_loop_fault; simpl; lia.
Qed.

(** C10 (amended): on every store of capacity [N], [update(index, delta)]
    with [N <= index < 2147483647] returns with every slot unchanged: the
    loop is not entered, and nothing signals the bad index. *)
Theorem update_past_capacity_is_noop
    (this : FenwickTree) (index delta : Z) (fuel : nat) :
  Int32.in_range index -> size_ this <= index < Int32.max_signed ->
  update (S fuel) index delta this = Ok (tt, this).
Proof.
  intros Hr Hi. unfold update, Int32.add.
  rewrite wrap_small by int32_lia.
  apply update_loop_exit. lia.
Qed.

Lemma update_past_capacity_is_noop_witness :
  update 1 7 3 (mkFenwickTree 5 [0; 1; 3; 3; 10; 5]) =
    Ok (tt, mkFenwickTree 5 [0; 1; 3; 3; 10; 5]).
Proof.
  apply (update_past_capacity_is_noop (mkFenwickTree 5 [0; 1; 3; 3; 10; 5]) 7 3 0).
  - int32_lia.
  - simpl. unfold Int32.max_signed. lia.
Defined.

(** C5 (fails as stated): no call is rejected. On a store of capacity 5
    [query(-1)] returns 0 and [update(5, 1)] returns, and the capacity -1
    constructs a store. *)
Lemma range_rejection_counterexample :
  exists st,
    FenwickTree_new 5 = Ok st /\
    (forall n, query (S n) (-1) st = Ok (0, st)) /\
    (forall n, update (S n) 5 1 st = Ok (tt, st)) /\
    FenwickTree_new (-1) = Ok (mkFenwickTree (-1) []).
Proof.
  exists (mkFenwickTree 5 [0; 0; 0; 0; 0; 0]).
  repeat split; intros; reflexivity.
Qed.

(** C5 (amended): the code checks no range. [query] with a negative index
    returns 0 and leaves the store unchanged; [update] with an index from
    the capacity up to 2147483646 returns and leaves the store unchanged, so
    that it has no partial effect; the capacity -1 constructs a store with
    an empty accumulator sequence. No call signals an error. *)
Theorem out_of_range_is_not_rejected
    (this : FenwickTree) (index delta : Z) (fuel : nat) :
  Int32.in_range index ->
  (index < 0 -> query (S fuel) index this = Ok (0, this)) /\
  (size_ this <= index < Int32.max_signed ->
   update (S fuel) index delta this = Ok (tt, this)) /\
  FenwickTree_new (-1) = Ok (mkFenwickTree (-1) []).
Proof.
  intros Hr. split; [| split].
  - now apply query_negative.
  - now apply update_past_size.
  - reflexivity.
Qed.

Lemma out_of_range_is_not_rejected_witness :
  query 1 (-3) (mkFenwickTree 5 [0; 1; 3; 3; 10; 5]) =
    Ok (0, mkFenwickTree 5 [0; 1; 3; 3; 10; 5]).
Proof.
  refine (proj1 (out_of_range_is_not_rejected
                   (mkFenwickTree 5 [0; 1; 3; 3; 10; 5]) (-3) 0 0 _) _).
  - int32_lia.
  - lia.
Defined.

(** ** The structural invariant *)

Lemma sum_where_ext p q ups :
  (forall j, p j = q j) -> sum_where p ups = sum_where q ups.
Proof.
  intros H. induction ups as [| [j d] ups IH]; cbn [sum_where]; [reflexivity |].
  now rewrite H, IH.
Qed.

Lemma sum_between_elements ups n : forall lo,
  sum_between ups lo (lo + Z.of_nat n) = sum_elements ups lo n.
Proof.
  induction n as [| n IH]; intros lo.
  - rewrite Z.add_0_r. apply sum_between_empty.
  - cbn [sum_elements]. rewrite <- IH.
    rewrite <- (sum_between_split ups lo (lo + 1) (lo + Z.of_nat (S n))) by lia.
    replace (lo + 1 + Z.of_nat n) with (lo + Z.of_nat (S n)) by lia.
    f_equal. unfold sum_between, element. apply sum_where_ext. intros j. lia.
Qed.

Lemma Inv_slot_sum ups this i :
  Inv ups this -> 1 <= i <= size_ this ->
  tree_ this !! Z.to_nat i = Some (slot_sum ups i).
Proof.
  intros (Hwf & _ & Hslots) Hi. rewrite (Hslots i Hi). unfold slot_sum.
  destruct Hwf as [Hs _].
  pose proof (lowbit_pos i ltac:(lia)) as Hl.
  rewrite <- sum_between_elements, Z2Nat.id by lia.
  replace (i - lowbit i + lowbit i) with i by lia. reflexivity.
Qed.

(** C6 (fails as stated): on a store of capacity 5, after [update(0, 1)],
    slot 1 holds 1, the element at the 0-based index 0; the element at the
    0-based index 1, the only one in [(1 - lowbit 1, 1]], is 0. And a slot
    is an [int]: on a store of capacity 1, after [update(0, 2147483647)]
    and [update(0, 1)], slot 1 holds -2147483648 while the element at the
    0-based index 0 is 2147483648. *)
Lemma slot_range_counterexample :
  (exists st0 st,
     FenwickTree_new 5 = Ok st0 /\
     (forall n, update (4 + n) 0 1 st0 = Ok (tt, st)) /\
     tree_ st !! 1%nat = Some 1 /\
     stated_slot_sum [(0, 1)] 1 = 0 /\
     slot_sum [(0, 1)] 1 = 1) /\
  (exists st0 st,
     FenwickTree_new 1 = Ok st0 /\
     (forall n, run_updates (2 + n) [(0, 2147483647); (0, 1)] st0 = Ok (tt, st)) /\
     tree_ st !! 1%nat = Some (-2147483648) /\
     sum_elements [(0, 2147483647); (0, 1)] (1 - lowbit 1) (Z.to_nat (lowbit 1)) =
       2147483648 /\
     slot_sum [(0, 2147483647); (0, 1)] 1 = -2147483648).
Proof.
  split.
  - exists (mkFenwickTree 5 [0; 0; 0; 0; 0; 0]), (mkFenwickTree 5 [0; 1; 1; 0; 1; 0]).
    repeat split; intros; vm_compute; reflexivity.
  - exists (mkFenwickTree 1 [0; 0]), (mkFenwickTree 1 [0; -2147483648]).
    repeat split; intros; vm_compute; reflexivity.
Qed.

(** C6 (amended): the constructor establishes and every returning
    operation preserves the structural invariant: the accumulator sequence
    keeps the length [capacity + 1], slot 0 stays zero, and each slot [i]
    in [1, capacity] equals the sum, as an [int], of the logical elements
    at the 1-based positions [(i - lowbit i, i]], that is at the 0-based
    indices [i - lowbit i .. i - 1]. *)
Theorem structural_invariant :
  (forall N this,
     Int32.in_range N -> 0 <= N -> FenwickTree_new N = Ok this ->
     Inv [] this /\ size_ this = N) /\
  (forall ups this j delta fuel r,
     Inv ups this -> 0 <= j < size_ this ->
     update fuel j delta this = Ok (tt, r) ->
     Inv (ups ++ [(j, delta)]) r /\ size_ r = size_ this) /\
  (forall ups this j delta fuel r,
     Inv ups this -> size_ this <= j < Int32.max_signed ->
     update fuel j delta this = Ok (tt, r) ->
     Inv ups r /\ size_ r = size_ this) /\
  (forall ups this k fuel v r,
     Inv ups this -> query fuel k this = Ok (v, r) ->
     Inv ups r /\ size_ r = size_ this) /\
  (forall ups this,
     Inv ups this ->
     Z.of_nat (length (tree_ this)) = size_ this + 1 /\
     tree_ this !! 0%nat = Some 0 /\
     forall i, 1 <= i <= size_ this ->
       tree_ this !! Z.to_nat i = Some (slot_sum ups i)).
Proof.
  split; [| split; [| split; [| split]]].
  - intros N this. apply new_inv.
  - intros ups this j delta fuel r. apply update_inv.
  - intros ups this j delta fuel r HI Hj Hup.
    destruct fuel as [| fuel]; [discriminate |].
    rewrite update_past_size in Hup.
    + injection Hup as <-. now split.
    + destruct HI as ([Hs _] & _). int32_lia.
    + assumption.
  - intros ups this k fuel v r HI Hq. apply query_pure in Hq. now subst r.
  - intros ups this HI. split; [apply HI |]. split; [apply HI |].
    intros i Hi. now apply Inv_slot_sum.
Qed.

Lemma structural_invariant_witness :
  Inv ([] ++ [(2, 7)]) (mkFenwickTree 4 [0; 0; 0; 7; 7]) /\
  tree_ (mkFenwickTree 4 [0; 0; 0; 7; 7]) !! Z.to_nat 4 =
    Some (slot_sum ([] ++ [(2, 7)]) 4).
Proof.
  destruct structural_invariant as (Hnew & Hupd & _ & _ & Hinv).
  assert (Inv ([] ++ [(2, 7)]) (mkFenwickTree 4 [0; 0; 0; 7; 7])) as HI.
  { refine (proj1 (Hupd [] (mkFenwickTree 4 [0; 0; 0; 0; 0]) 2 7 3%nat _ _ _ _)).
    - refine (proj1 (Hnew 4 _ _ _ _)).
      + int32_lia.
      + lia.
      + reflexivity.
    - simpl. lia.
    - reflexivity. }
  split; [exact HI |].
  refine (proj2 (proj2 (Hinv _ _ HI)) 4 _). simpl. lia.
Defined.

(** ** The checks of [testFenwickTree] *)

(** C9: on a store of capacity 5, after [update(0,1)] the queries at 0, 1, 2
    return 1, 1, 1; after [update(1,2)] they return 1, 3, 3; after
    [update(2,3)], [query(2)] returns 6; after [update(3,4)] and
    [update(4,5)], [query(3)] returns 10 and [query(4)] returns 15. *)
Theorem test_case_1_passes :
  exists st0 st,
    FenwickTree_new 5 = Ok st0 /\
    forall n,
      test_case_1 (4 + n) st0 =
        Ok ([1; 1; 1; 1; 3; 3; 1; 3; 6; 1; 3; 6; 10; 15], st).
Proof.
  exists (mkFenwickTree 5 [0; 0; 0; 0; 0; 0]), (mkFenwickTree 5 [0; 1; 3; 3; 10; 5]).
  split; [reflexivity |]. intros n. vm_compute. reflexivity.
Qed.


(** The other checks of the source pass as well. *)
Example test_case_2_passes n :
  test_case_2 (3 + n) (mkFenwickTree 3 [0; 0; 0; 0]) =
    Ok ([10; 10; 10; 10; 30; 30; 15; 35; 35], mkFenwickTree 3 [0; 15; 35; 0]).
Proof. vm_compute. reflexivity. Qed.

Example test_case_3_passes n :
  test_case_3 (4 + n) (mkFenwickTree 4 [0; 0; 0; 0; 0]) =
    Ok ([0; 0; 7], mkFenwickTree 4 [0; 0; 0; 7; 7]).
Proof. vm_compute. reflexivity. Qed.

Example runFenwickTreeSample_prints n :
  runFenwickTreeSample (5 + n) (mkFenwickTree 10 [0; 0; 0; 0; 0; 0; 0; 0; 0; 0; 0]) =
    Ok ([10; 10; 15; 15; 22; 25],
        mkFenwickTree 10 [0; 10; 10; 5; 15; 0; 7; 0; 22; 0; 3]).
Proof. vm_compute. reflexivity. Qed.

(** * Further properties of [update] and [query] *)

(** ** Arithmetic of [Int32.add] *)

Lemma add_swap v a b :
  Int32.add (Int32.add v a) b = Int32.add (Int32.add v b) a.
Proof.
  unfold Int32.add. rewrite !wrap_add_l. apply (wrap_congr _ _ 0). lia.
Qed.

Lemma add_add v a b :
  Int32.add (Int32.add v a) b = Int32.add v (Int32.add a b).
Proof.
  unfold Int32.add. rewrite wrap_add_l, wrap_add_r.
  apply (wrap_congr _ _ 0). lia.
Qed.

Lemma add_neg_cancel v d :
  Int32.in_range v -> Int32.add (Int32.add v d) (Int32.neg d) = v.
Proof.
  intros Hv. unfold Int32.add, Int32.neg. rewrite wrap_add_l, wrap_add_r.
  rewrite <- (wrap_small v Hv) at 2. apply (wrap_congr _ _ 0). lia.
Qed.

(** ** Objects with the same slots *)

Lemma store_eq (this r : FenwickTree) :
  size_ r = size_ this ->
  (forall n : nat, tree_ r !! n = tree_ this !! n) -> r = this.
Proof.
  destruct this as [s t], r as [s' t']. cbn [size_ tree_].
  intros -> Hslots. f_equal. now apply list_eq.
Qed.

(** The effect of a returning [update] with an in-range index, slot by slot. *)
Lemma update_slots fuel this j delta r :
  wf this -> 0 <= j < size_ this ->
  update fuel j delta this = Ok (tt, r) ->
  wf r /\ size_ r = size_ this /\
  forall n : nat,
    tree_ r !! n =
      if touched (size_ this) (j + 1) (Z.of_nat n)
      then (fun v => Int32.add v delta) <$> (tree_ this !! n)
      else tree_ this !! n.
Proof.
  intros Hwf Hj Hrun.
  destruct (update_ok _ _ _ _ _ Hwf Hj Hrun) as (Hwf' & Hsz & Hslots).
  split; [assumption |]. split; [assumption |].
  intros n. specialize (Hslots (Z.of_nat n) ltac:(lia)).
  now rewrite Nat2Z.id in Hslots.
Qed.

Lemma update_then_update_returns fuel this j1 d1 j2 d2 :
  wf this -> size_ this < 1073741824 ->
  0 <= j1 < size_ this -> 0 <= j2 < size_ this -> (32 <= fuel)%nat ->
  exists r, (update fuel j1 d1 >> update fuel j2 d2) this = Ok (tt, r).
Proof.
  intros Hwf Hs Hj1 Hj2 Hfuel. unfold bind.
  destruct (update_returns_32 fuel this j1 d1 Hwf Hs Hj1 Hfuel) as [mid Hmid].
  rewrite Hmid.
  destruct (update_ok _ _ _ _ _ Hwf Hj1 Hmid) as (Hwf' & Hsz & _).
  apply update_returns_32; rewrite ?Hsz; assumption.
Qed.

(** Splitting a returning pair of updates into its two calls. *)
Lemma update_then_update_ok fuel this j1 d1 j2 d2 r :
  (update fuel j1 d1 >> update fuel j2 d2) this = Ok (tt, r) ->
  exists mid,
    update fuel j1 d1 this = Ok (tt, mid) /\ update fuel j2 d2 mid = Ok (tt, r).
Proof.
  unfold bind. intros Hrun.
  destruct (update fuel j1 d1 this) as [[[] mid] | | |]; try discriminate.
  now exists mid.
Qed.

(** ** Slots are [int]s *)

Lemma new_slots_are_ints size this :
  FenwickTree_new size = Ok this -> slots_are_ints this.
Proof.
  unfold FenwickTree_new. destruct (Int32.add size 1 <? 0); [discriminate |].
  intros H. injection H as <-. unfold slots_are_ints. cbn [tree_].
  apply Forall_replicate. int32_lia.
Qed.

(** ** Updates compose *)

(** X1: on every store, for every in-range index [j],
    [update(j, d1)] followed by [update(j, d2)] ends in the same way with
    the same object as the single call [update(j, d1 + d2)], the sum taken
    as an [int]. *)
Theorem updates_at_one_index_merge
    (this : FenwickTree) (j d1 d2 : Z) (fuel : nat) :
  wf this -> 0 <= j < size_ this ->
  (update fuel j d1 >> update fuel j d2) this =
    update fuel j (Int32.add d1 d2) this.
Proof.
  intros Hwf Hj.
  pose proof (update_shape fuel j d1 (Int32.add d1 d2) this this
                eq_refl eq_refl) as Hsh.
  unfold bind.
  destruct (update fuel j d1 this) as [[[] mid] | | |] eqn:Hup;
    destruct (update fuel j (Int32.add d1 d2) this)
      as [[[] once] | | |] eqn:Hup2; try discriminate; try reflexivity.
  destruct (update_slots _ _ _ _ _ Hwf Hj Hup) as (Hwf1 & Hsz1 & Hs1).
  destruct (update_slots _ _ _ _ _ Hwf Hj Hup2) as (Hwf2 & Hsz2 & Hs2).
  assert (length (tree_ this) = length (tree_ mid)) as Hlen
    by (destruct Hwf as [_ Hl], Hwf1 as [_ Hl1]; lia).
  pose proof (update_shape fuel j d1 d2 this mid (eq_sym Hsz1) Hlen) as Hsh'.
  rewrite Hup in Hsh'.
  destruct (update fuel j d2 mid) as [[[] twice] | | |] eqn:Hup3;
    try discriminate.
  rewrite <- Hsz1 in Hj.
  destruct (update_slots _ _ _ _ _ Hwf1 Hj Hup3) as (Hwf3 & Hsz3 & Hs3).
  do 2 f_equal. apply store_eq; [congruence |].
  intros n. rewrite Hs3, Hs2, Hs1, Hsz1.
  destruct (touched (size_ this) (j + 1) (Z.of_nat n)); [| reflexivity].
  destruct (tree_ this !! n) as [v |];
    cbn [fmap option_fmap option_map]; [| reflexivity].
  now rewrite add_add.
Qed.

Lemma updates_at_one_index_merge_witness :
  (update 4 2 9 >> update 4 2 (-4)) (mkFenwickTree 5 [0; 1; 3; 0; 3; 0]) =
    update 4 2 (Int32.add 9 (-4)) (mkFenwickTree 5 [0; 1; 3; 0; 3; 0]).
Proof.
  apply (updates_at_one_index_merge (mkFenwickTree 5 [0; 1; 3; 0; 3; 0]) 2 9 (-4) 4).
  - split; simpl; int32_lia.
  - simpl. lia.
Defined.

(** X2: on every store, two updates with in-range indices commute: when
    both orders return they leave the same object, and on a store of
    capacity below [2^30] both orders return. *)
Theorem updates_commute
    (this : FenwickTree) (j1 d1 j2 d2 : Z) (fuel : nat) :
  wf this -> 0 <= j1 < size_ this -> 0 <= j2 < size_ this ->
  (forall r r',
     (update fuel j1 d1 >> update fuel j2 d2) this = Ok (tt, r) ->
     (update fuel j2 d2 >> update fuel j1 d1) this = Ok (tt, r') ->
     r = r') /\
  (size_ this < 1073741824 -> (32 <= fuel)%nat ->
   exists r,
     (update fuel j1 d1 >> update fuel j2 d2) this = Ok (tt, r) /\
     (update fuel j2 d2 >> update fuel j1 d1) this = Ok (tt, r)).
Proof.
  intros Hwf Hj1 Hj2.
  assert (forall r r',
     (update fuel j1 d1 >> update fuel j2 d2) this = Ok (tt, r) ->
     (update fuel j2 d2 >> update fuel j1 d1) this = Ok (tt, r') ->
     r = r') as Hsame.
  { intros r r' H12 H21.
    apply update_then_update_ok in H12 as (m1 & Ha & Hb).
    apply update_then_update_ok in H21 as (m2 & Hc & Hd).
    destruct (update_slots _ _ _ _ _ Hwf Hj1 Ha) as (Hwa & Hsa & Hla).
    destruct (update_slots _ _ _ _ _ Hwf Hj2 Hc) as (Hwc & Hsc & Hlc).
    rewrite <- Hsa in Hj2. rewrite <- Hsc in Hj1.
    destruct (update_slots _ _ _ _ _ Hwa Hj2 Hb) as (Hwb & Hsb & Hlb).
    destruct (update_slots _ _ _ _ _ Hwc Hj1 Hd) as (Hwd & Hsd & Hld).
    apply store_eq; [congruence |].
    intros n. rewrite Hlb, Hld, Hla, Hlc, Hsa, Hsc.
    destruct (touched (size_ this) (j1 + 1) (Z.of_nat n)),
             (touched (size_ this) (j2 + 1) (Z.of_nat n));
      try reflexivity.
    destruct (tree_ this !! n) as [v |];
      cbn [fmap option_fmap option_map]; [| reflexivity].
    now rewrite add_swap. }
  split; [exact Hsame |].
  intros Hs Hfuel.
  destruct (update_then_update_returns fuel this j1 d1 j2 d2
              Hwf Hs Hj1 Hj2 Hfuel) as [r Hr].
  destruct (update_then_update_returns fuel this j2 d2 j1 d1
              Hwf Hs Hj2 Hj1 Hfuel) as [r' Hr'].
  exists r. split; [assumption |]. now rewrite (Hsame r r' Hr Hr').
Qed.

Lemma updates_commute_witness :
  exists r,
    (update 32 0 7 >> update 32 3 (-2)) (mkFenwickTree 5 [0; 1; 3; 0; 3; 0]) =
      Ok (tt, r) /\
    (update 32 3 (-2) >> update 32 0 7) (mkFenwickTree 5 [0; 1; 3; 0; 3; 0]) =
      Ok (tt, r).
Proof.
  refine (proj2 (updates_commute (mkFenwickTree 5 [0; 1; 3; 0; 3; 0])
                   0 7 3 (-2) 32 _ _ _) _ _).
  - split; simpl; int32_lia.
  - simpl. lia.
  - simpl. lia.
  - simpl. lia.
  - lia.
Defined.

(** A returning update keeps the slots within [int]. *)
Lemma update_keeps_ints fuel this j delta r :
  wf this -> 0 <= j < size_ this -> slots_are_ints this ->
  update fuel j delta this = Ok (tt, r) -> slots_are_ints r.
Proof.
  intros Hwf Hj Hints Hrun.
  destruct (update_slots _ _ _ _ _ Hwf Hj Hrun) as (_ & _ & Hslots).
  unfold slots_are_ints in *. rewrite Forall_lookup in *.
  intros n v Hv. rewrite Hslots in Hv.
  destruct (touched (size_ this) (j + 1) (Z.of_nat n)); [| eauto].
  destruct (tree_ this !! n) as [w |]; [| discriminate].
  injection Hv as <-. apply wrap_in_range.
Qed.

(** X3: on every store whose slots are [int]s, [update(j, delta)] followed
    by [update(j, -delta)] with an in-range index restores the object:
    when the two calls return, the store is the one before them, and on a
    store of capacity below [2^30] they return. *)
Theorem update_is_undone_by_opposite
    (this : FenwickTree) (j delta : Z) (fuel : nat) :
  wf this -> slots_are_ints this -> 0 <= j < size_ this ->
  (forall r,
     (update fuel j delta >> update fuel j (Int32.neg delta)) this = Ok (tt, r) ->
     r = this) /\
  (size_ this < 1073741824 -> (32 <= fuel)%nat ->
   (update fuel j delta >> update fuel j (Int32.neg delta)) this = Ok (tt, this)).
Proof.
  intros Hwf Hints Hj.
  assert (forall r,
     (update fuel j delta >> update fuel j (Int32.neg delta)) this = Ok (tt, r) ->
     r = this) as Hback.
  { intros r Hrun.
    apply update_then_update_ok in Hrun as (mid & Ha & Hb).
    destruct (update_slots _ _ _ _ _ Hwf Hj Ha) as (Hwa & Hsa & Hla).
    rewrite <- Hsa in Hj.
    destruct (update_slots _ _ _ _ _ Hwa Hj Hb) as (Hwb & Hsb & Hlb).
    apply store_eq; [congruence |].
    intros n. rewrite Hlb, Hla, Hsa.
    destruct (touched (size_ this) (j + 1) (Z.of_nat n)); [| reflexivity].
    destruct (tree_ this !! n) as [v |] eqn:Hv;
      cbn [fmap option_fmap option_map]; [| reflexivity].
    unfold slots_are_ints in Hints. rewrite Forall_lookup in Hints.
    now rewrite add_neg_cancel by eauto. }
  split; [exact Hback |].
  intros Hs Hfuel.
  destruct (update_then_update_returns fuel this j delta j (Int32.neg delta)
              Hwf Hs Hj Hj Hfuel) as [r Hr].
  now rewrite Hr, (Hback r Hr).
Qed.

Lemma update_is_undone_by_opposite_witness :
  (update 32 1 9 >> update 32 1 (Int32.neg 9)) (mkFenwickTree 5 [0; 1; 3; 0; 3; 0]) =
    Ok (tt, mkFenwickTree 5 [0; 1; 3; 0; 3; 0]).
Proof.
  refine (proj2 (update_is_undone_by_opposite
                   (mkFenwickTree 5 [0; 1; 3; 0; 3; 0]) 1 9 32 _ _ _) _ _).
  - split; simpl; int32_lia.
  - unfold slots_are_ints. simpl. repeat constructor; int32_lia.
  - simpl. lia.
  - simpl. lia.
  - lia.
Defined.

(** ** What an update does to the queries at and above its index *)

Lemma query_loop_after_update fuel : forall y s s' e this r x delta,
  wf this -> size_ r = size_ this -> 0 < x ->
  (forall n : nat,
     tree_ r !! n =
       if touched (size_ this) x (Z.of_nat n)
       then (fun v => Int32.add v delta) <$> (tree_ this !! n)
       else tree_ this !! n) ->
  0 <= y <= size_ this -> s' = Int32.wrap (s + e) ->
  (Z.to_nat y < fuel)%nat ->
  exists v,
    query_loop fuel y s this = Ok (v, this) /\
    query_loop fuel y s' r =
      Ok (Int32.wrap (v + e + (if x <=? y then delta else 0)), r).
Proof.
  induction fuel as [| fuel IH];
    intros y s s' e this r x delta Hwf Hsz Hx Hslots Hy Hs' Hfuel.
  { lia. }
  destruct (Z.eq_dec y 0) as [-> | Hne].
  { exists s. rewrite !query_loop_exit by lia. split; [reflexivity |].
    assert ((x <=? 0) = false) as -> by lia. now rewrite Z.add_0_r, Hs'. }
  pose proof Hwf as [Hs Hlen].
  pose proof (lowbit_pos y ltac:(lia)) as Hl.
  destruct (lookup_lt_is_Some_2 (tree_ this) (Z.to_nat y) ltac:(lia))
    as [w Hw].
  pose proof (Hslots (Z.to_nat y)) as Hw'. rewrite Z2Nat.id, Hw in Hw' by lia.
  cbn [fmap option_fmap option_map] in Hw'.
  rewrite (query_loop_step _ _ _ w) by (lia || assumption).
  rewrite next_down by lia.
  destruct (touched (size_ this) x y) eqn:Ht.
  - rewrite (query_loop_step _ _ _ (Int32.add w delta)) by (lia || assumption).
    rewrite next_down by lia.
    destruct (IH (y - lowbit y) (Int32.add s w)
                (Int32.add s' (Int32.add w delta)) (e + delta)
                this r x delta Hwf Hsz Hx Hslots ltac:(lia))
      as (v & Hq & Hq').
    { unfold Int32.add. rewrite Hs', wrap_add_l, wrap_add_r, wrap_add_l.
      apply (wrap_congr _ _ 0). lia. }
    { lia. }
    exists v. split; [assumption |]. rewrite Hq'.
    unfold touched, coversb in Ht.
    assert ((x <=? y - lowbit y) = false) as -> by lia.
    assert ((x <=? y) = true) as -> by lia.
    now rewrite Z.add_0_r, Z.add_assoc.
  - rewrite (query_loop_step _ _ _ w) by (lia || assumption).
    rewrite next_down by lia.
    destruct (IH (y - lowbit y) (Int32.add s w) (Int32.add s' w) e
                this r x delta Hwf Hsz Hx Hslots ltac:(lia))
      as (v & Hq & Hq').
    { unfold Int32.add. rewrite Hs', !wrap_add_l.
      apply (wrap_congr _ _ 0). lia. }
    { lia. }
    exists v. split; [assumption |]. rewrite Hq'.
    unfold touched, coversb in Ht.
    destruct (Z_le_gt_dec x y).
    + assert ((x <=? y - lowbit y) = true) as -> by lia.
      assert ((x <=? y) = true) as -> by lia. reflexivity.
    + assert ((x <=? y - lowbit y) = false) as -> by lia.
      assert ((x <=? y) = false) as -> by lia. reflexivity.
Qed.

(** X4: on every store, a returning [update(j, delta)] with an in-range
    index adds [delta], as an [int], to what [query(k)] returns for every
    in-range [k >= j]. *)
Theorem update_raises_upper_queries
    (this : FenwickTree) (j delta k : Z) (fuel fuel' : nat) (r : FenwickTree) :
  wf this -> 0 <= j < size_ this -> j <= k < size_ this ->
  update fuel j delta this = Ok (tt, r) ->
  (Z.to_nat (k + 1) < fuel')%nat ->
  exists v,
    query fuel' k this = Ok (v, this) /\
    query fuel' k r = Ok (Int32.add v delta, r).
Proof.
  intros Hwf Hj Hk Hrun Hfuel.
  destruct (update_slots _ _ _ _ _ Hwf Hj Hrun) as (Hwf' & Hsz & Hslots).
  unfold query. rewrite (succ_index this) by (assumption || lia).
  destruct (query_loop_after_update fuel' (k + 1) 0 0 0 this r (j + 1) delta
              Hwf Hsz ltac:(lia) Hslots ltac:(lia) eq_refl Hfuel)
    as (v & Hq & Hq').
  exists v. split; [assumption |]. rewrite Hq'.
  assert ((j + 1 <=? k + 1) = true) as -> by lia.
  now rewrite Z.add_0_r.
Qed.

Lemma update_raises_upper_queries_witness :
  exists v,
    query 6 4 (mkFenwickTree 5 [0; 1; 3; 0; 3; 0]) =
      Ok (v, mkFenwickTree 5 [0; 1; 3; 0; 3; 0]) /\
    query 6 4 (mkFenwickTree 5 [0; 1; 3; 9; 12; 0]) =
      Ok (Int32.add v 9, mkFenwickTree 5 [0; 1; 3; 9; 12; 0]).
Proof.
  apply (update_raises_upper_queries
           (mkFenwickTree 5 [0; 1; 3; 0; 3; 0]) 2 9 4 4 6).
  - split; simpl; int32_lia.
  - simpl. lia.
  - simpl. lia.
  - reflexivity.
  - simpl. lia.
Defined.

(** ** Sums over a range of elements *)

Lemma wrap_sub a b :
  Int32.sub (Int32.wrap a) (Int32.wrap b) = Int32.wrap (a - b).
Proof.
  unfold Int32.sub.
  destruct (wrap_eqm a) as [p Hp]. destruct (wrap_eqm b) as [q Hq].
  apply (wrap_congr _ _ (p - q)). lia.
Qed.

(** X5: after any returning sequence of in-range updates on a fresh store
    of capacity [N], the difference [query(r) - query(l - 1)], taken as an
    [int], is the sum of the logical elements at the indices [l .. r], as
    an [int]; with [l = r] it is the element itself. *)
Theorem range_sum_by_difference
    (N : Z) (ups : list (Z * Z)) (st0 st : FenwickTree) (l r : Z)
    (fuel fuel' : nat) :
  Int32.in_range N -> FenwickTree_new N = Ok st0 ->
  indices_in_range N ups -> run_updates fuel ups st0 = Ok (tt, st) ->
  0 < l <= r -> r < N -> (Z.to_nat (r + 1) < fuel')%nat ->
  exists a b,
    query fuel' r st = Ok (a, st) /\
    query fuel' (l - 1) st = Ok (b, st) /\
    Int32.sub a b = Int32.wrap (sum_elements ups l (Z.to_nat (r - l + 1))).
Proof.
  intros HN Hnew Hin Hrun Hl Hr Hfuel.
  destruct (new_inv N st0 HN ltac:(lia) Hnew) as [HI Hsz].
  rewrite <- Hsz in Hin.
  destruct (run_updates_inv _ _ _ _ _ HI Hin Hrun) as [HI' Hsz'].
  cbn [app] in HI'.
  exists (Int32.wrap (sum_between ups 0 (r + 1))),
         (Int32.wrap (sum_between ups 0 (l - 1 + 1))).
  split; [apply query_sum; [assumption | lia | assumption] |].
  split; [apply query_sum; [assumption | lia | lia] |].
  rewrite wrap_sub. rewrite <- sum_between_elements, Z2Nat.id by lia.
  replace (l - 1 + 1) with l by lia. replace (l + (r - l + 1)) with (r + 1) by lia.
  rewrite <- (sum_between_split ups 0 l (r + 1)) by lia.
  apply (wrap_congr _ _ 0). lia.
Qed.

Lemma range_sum_by_difference_witness :
  exists a b,
    query 5 2 (mkFenwickTree 4 [0; -3; -3; 7; 4]) =
      Ok (a, mkFenwickTree 4 [0; -3; -3; 7; 4]) /\
    query 5 (2 - 1) (mkFenwickTree 4 [0; -3; -3; 7; 4]) =
      Ok (b, mkFenwickTree 4 [0; -3; -3; 7; 4]) /\
    Int32.sub a b =
      Int32.wrap (sum_elements [(2, 7); (0, -3)] 2 (Z.to_nat (2 - 2 + 1))).
Proof.
  apply (range_sum_by_difference 4 [(2, 7); (0, -3)]
           (mkFenwickTree 4 [0; 0; 0; 0; 0]) (mkFenwickTree 4 [0; -3; -3; 7; 4])
           2 2 5 5).
  - int32_lia.
  - reflexivity.
  - repeat constructor; simpl; lia.
  - reflexivity.
  - lia.
  - lia.
  - simpl. lia.
Defined.

(** ** The order of the updates *)

Lemma sum_where_perm p ups ups' :
  Permutation ups ups' -> sum_where p ups = sum_where p ups'.
Proof.
  induction 1 as [| [j d] l l' _ IH | [j d] [j' d'] l | l l' l'' _ IH _ IH'];
    cbn [sum_where].
  - reflexivity.
  - now rewrite IH.
  - destruct (p j), (p j'); lia.
  - congruence.
Qed.

(** An object that satisfies the invariant is determined by the sums of
    its history. *)
Lemma Inv_determines ups ups' this this' :
  Inv ups this -> Inv ups' this' -> size_ this' = size_ this ->
  (forall lo hi, sum_between ups' lo hi = sum_between ups lo hi) ->
  this' = this.
Proof.
  intros ([Hs Hlen] & H0 & Hslots) ([Hs' Hlen'] & H0' & Hslots') Hsz Hsums.
  apply store_eq; [assumption |]. intros n.
  destruct (Nat.eq_dec n 0) as [-> | Hn0]; [congruence |].
  destruct (Z_le_gt_dec (Z.of_nat n) (size_ this)) as [Hle | Hgt].
  - pose proof (Hslots (Z.of_nat n) ltac:(lia)) as E.
    pose proof (Hslots' (Z.of_nat n) ltac:(lia)) as E'.
    rewrite Nat2Z.id in E, E'. now rewrite E, E', Hsums.
  - rewrite !(lookup_ge_None_2 _ n) by lia. reflexivity.
Qed.

(** X6: the object left by a returning sequence of in-range updates on a
    fresh store does not depend on the order of the updates. *)
Theorem final_store_ignores_update_order
    (N : Z) (ups ups' : list (Z * Z)) (st0 st st' : FenwickTree)
    (fuel fuel' : nat) :
  Int32.in_range N -> 0 <= N -> FenwickTree_new N = Ok st0 ->
  indices_in_range N ups -> Permutation ups ups' ->
  run_updates fuel ups st0 = Ok (tt, st) ->
  run_updates fuel' ups' st0 = Ok (tt, st') ->
  st' = st.
Proof.
  intros HN HN0 Hnew Hin Hperm Hrun Hrun'.
  destruct (new_inv N st0 HN HN0 Hnew) as [HI Hsz].
  assert (indices_in_range N ups') as Hin'
    by (unfold indices_in_range in *; now rewrite <- Hperm).
  rewrite <- Hsz in Hin, Hin'.
  destruct (run_updates_inv _ _ _ _ _ HI Hin Hrun) as [HI1 Hsz1].
  destruct (run_updates_inv _ _ _ _ _ HI Hin' Hrun') as [HI2 Hsz2].
  cbn [app] in HI1, HI2.
  apply (Inv_determines ups ups'); [assumption | assumption | congruence |].
  intros lo hi. unfold sum_between. symmetry. now apply sum_where_perm.
Qed.

Lemma final_store_ignores_update_order_witness :
  mkFenwickTree 4 [0; -3; -3; 7; 4] = mkFenwickTree 4 [0; -3; -3; 7; 4].
Proof.
  apply (final_store_ignores_update_order 4 [(2, 7); (0, -3)] [(0, -3); (2, 7)]
           (mkFenwickTree 4 [0; 0; 0; 0; 0]) _ _ 5 5).
  - int32_lia.
  - lia.
  - reflexivity.
  - repeat constructor; simpl; lia.
  - apply perm_swap.
  - reflexivity.
  - reflexivity.
Defined.

(** ** The cost of a call *)

(** X7: both loops are logarithmic in the capacity: if [capacity < 2^f],
    [query] with an in-range index returns after at most [f + 1]
    evaluations of its loop condition, and so does [update] on a store of
    capacity below [2^30]. *)
Theorem calls_cost_logarithmic
    (this : FenwickTree) (index delta : Z) (f : nat) :
  wf this -> 0 <= index < size_ this -> size_ this < 2 ^ Z.of_nat f ->
  (exists v, query (S f) index this = Ok (v, this)) /\
  (size_ this < 1073741824 ->
   exists r, update (S f) index delta this = Ok (tt, r)).
Proof.
  intros Hwf Hi Hf. pose proof Hwf as [Hs Hlen].
  pose proof (lowbit_pos (index + 1) ltac:(lia)) as Hl.
  unfold query, update. rewrite (succ_index this) by assumption. split.
  - apply query_loop_returns_log; try lia. right. nia.
  - intros Hsmall. apply update_loop_returns_log; try lia. nia.
Qed.

Lemma calls_cost_logarithmic_witness :
  (exists v, query 4 4 (mkFenwickTree 5 [0; 1; 3; 3; 10; 5]) =
               Ok (v, mkFenwickTree 5 [0; 1; 3; 3; 10; 5])) /\
  (exists r, update 4 0 7 (mkFenwickTree 5 [0; 1; 3; 3; 10; 5]) = Ok (tt, r)).
Proof.
  destruct (calls_cost_logarithmic (mkFenwickTree 5 [0; 1; 3; 3; 10; 5]) 4 7 3)
    as [Hq _].
  { split; simpl; int32_lia. }
  { simpl. lia. }
  { simpl. lia. }
  destruct (calls_cost_logarithmic (mkFenwickTree 5 [0; 1; 3; 3; 10; 5]) 0 7 3)
    as [_ Hu].
  { split; simpl; int32_lia. }
  { simpl. lia. }
  { simpl. lia. }
  split; [exact Hq | apply Hu; simpl; lia].
Defined.

(** ** Calls with an index outside the range *)

(** X8: on a store of capacity at least 0, [update] with a negative index
    or with the index 2147483647 never returns normally: with index -1 the
    loop stays at position 0 for ever, with an index below -1 and with
    2147483647 (where [index++] wraps around) the first turn of the loop
    indexes outside the vector. *)
Theorem update_outside_never_returns
    (this : FenwickTree) (index delta : Z) :
  wf this -> Int32.in_range index ->
  (index = -1 -> forall fuel, update fuel index delta this = Timeout) /\
  (index < -1 \/ index = Int32.max_signed ->
   forall fuel, update (S fuel) index delta this = Fault).
Proof.
  intros Hwf Hr. split.
  - intros -> fuel. now apply update_minus_one_diverges.
  - intros [Hlow | ->] fuel.
    + now apply update_below_minus_one.
    + destruct Hwf as [Hs Hlen]. unfold update.
      change (Int32.add Int32.max_signed 1) with (-2147483648).
      apply update_loop_fault; lia.
Qed.

Lemma update_outside_never_returns_witness :
  update 9 (-1) 3 (mkFenwickTree 5 [0; 1; 3; 3; 10; 5]) = Timeout /\
  update 9 (-7) 3 (mkFenwickTree 5 [0; 1; 3; 3; 10; 5]) = Fault.
Proof.
  destruct (update_outside_never_returns
              (mkFenwickTree 5 [0; 1; 3; 3; 10; 5]) (-1) 3) as [Hloop _].
  { split; simpl; int32_lia. }
  { int32_lia. }
  destruct (update_outside_never_returns
              (mkFenwickTree 5 [0; 1; 3; 3; 10; 5]) (-7) 3) as [_ Hfault].
  { split; simpl; int32_lia. }
  { int32_lia. }
  split; [apply Hloop; reflexivity | apply (Hfault ltac:(left; lia) 8%nat)].
Defined.

(** X9: on a store of capacity at least 0, [query] with an index from the
    capacity up to 2147483646 reads outside the vector in the first turn
    of its loop; with the index 2147483647 the position wraps around to
    -2147483648, the loop is not entered and 0 is returned. *)
Theorem query_past_capacity
    (this : FenwickTree) (index : Z) (fuel : nat) :
  wf this -> size_ this <= index <= Int32.max_signed ->
  (index < Int32.max_signed -> query (S fuel) index this = Fault) /\
  (index = Int32.max_signed -> query (S fuel) index this = Ok (0, this)).
Proof.
  intros Hwf Hi. split.
  - intros Hlt. apply query_past_size; [assumption | lia].
  - intros ->. unfold query.
    change (Int32.add Int32.max_signed 1) with (-2147483648).
    apply query_loop_exit. lia.
Qed.

Lemma query_past_capacity_witness :
  query 1 5 (mkFenwickTree 5 [0; 1; 3; 3; 10; 5]) = Fault.
Proof.
  refine (proj1 (query_past_capacity
                   (mkFenwickTree 5 [0; 1; 3; 3; 10; 5]) 5 0 _ _) _).
  - split; simpl; int32_lia.
  - simpl. int32_lia.
  - int32_lia.
Defined.

(** ** One update on a fresh store *)

(** X10: on a fresh store of capacity [N], after one returning
    [update(j, delta)] with an in-range index, [query(k)] returns 0 for
    every [k < j] and [delta] for every in-range [k >= j]. *)
Theorem single_update_on_fresh_store
    (N j delta k : Z) (st0 st : FenwickTree) (fuel fuel' : nat) :
  Int32.in_range N -> Int32.in_range delta ->
  FenwickTree_new N = Ok st0 -> 0 <= j < N ->
  update fuel j delta st0 = Ok (tt, st) ->
  0 <= k < N -> (Z.to_nat (k + 1) < fuel')%nat ->
  query fuel' k st = Ok ((if j <=? k then delta else 0), st).
Proof.
  intros HN Hd Hnew Hj Hrun Hk Hfuel.
  destruct (new_inv N st0 HN ltac:(lia) Hnew) as [HI Hsz].
  rewrite <- Hsz in Hj.
  destruct (update_inv _ _ _ _ _ _ HI Hj Hrun) as [HI' Hsz'].
  cbn [app] in HI'.
  rewrite (query_sum fuel' [(j, delta)] st k HI') by (lia || assumption).
  unfold sum_between. cbn [sum_where].
  destruct (Z_le_gt_dec j k).
  - assert (((0 <=? j) && (j <? k + 1)) = true) as -> by lia.
    assert ((j <=? k) = true) as -> by lia.
    now rewrite Z.add_0_r, wrap_small.
  - assert (((0 <=? j) && (j <? k + 1)) = false) as -> by lia.
    assert ((j <=? k) = false) as -> by lia. reflexivity.
Qed.

Lemma single_update_on_fresh_store_witness :
  query 4 2 (mkFenwickTree 4 [0; 0; 0; 7; 7]) =
    Ok ((if 2 <=? 2 then 7 else 0), mkFenwickTree 4 [0; 0; 0; 7; 7]).
Proof.
  apply (single_update_on_fresh_store 4 2 7 2
           (mkFenwickTree 4 [0; 0; 0; 0; 0]) (mkFenwickTree 4 [0; 0; 0; 7; 7]) 4 4).
  - int32_lia.
  - int32_lia.
  - reflexivity.
  - lia.
  - reflexivity.
  - lia.
  - simpl. lia.
Defined.

(** ** The expression [index & (-index)] *)

(** X11: for a positive [int], [index & (-index)] is the value of the
    lowest set bit of [index]: it is [2^a] where bit [a] of [index] is set
    and no bit below [a] is, and it divides [index]. *)
Theorem lowbit_is_lowest_set_bit (index : Z) :
  0 < index <= Int32.max_signed ->
  exists a,
    0 <= a /\ lowbit index = 2 ^ a /\
    Z.testbit index a = true /\
    (forall b, 0 <= b < a -> Z.testbit index b = false) /\
    (lowbit index | index).
Proof.
  intros Hx.
  destruct (lowbit_decomp index Hx) as (a & m & Ha & Hm & Hl & Hd).
  exists a. split; [assumption |]. split; [assumption |].
  rewrite Hl. split; [| split].
  - rewrite Hd, Z.mul_comm, Z.mul_pow2_bits, Z.sub_diag by lia.
    apply Z.testbit_odd_0.
  - intros b Hb. rewrite Hd, Z.mul_comm. apply Z.mul_pow2_bits_low. lia.
  - exists (2 * m + 1). lia.
Qed.

Lemma lowbit_is_lowest_set_bit_witness :
  exists a,
    0 <= a /\ lowbit 12 = 2 ^ a /\
    Z.testbit 12 a = true /\
    (forall b, 0 <= b < a -> Z.testbit 12 b = false) /\
    (lowbit 12 | 12).
Proof.
  apply (lowbit_is_lowest_set_bit 12). int32_lia.
Defined.
